(** * Branching rollout tree and dynamic batching: a shallow embedding

    The Python objects of [playpen.branching] live on a heap and are
    compared by identity ([is], and [in] on objects without [__eq__]).
    The embedding keeps that heap explicit: a reference is the index of
    an object in an append-only store, so that two references are the
    same object exactly when they are the same number.  Node objects,
    the list objects bound to [_branches], the set objects bound to
    [_tags] and the game-master objects each have a store of their own,
    which is what makes the sharing created by [copy.copy] visible. *)

From Stdlib Require Import ZArith String List Lia.
From stdpp Require Import base option list gmap strings pretty.

Open Scope string_scope.
Open Scope list_scope.

(** ** Exceptions and the state-and-error monad *)

Inductive exn : Type :=
| AssertionError (msg : string)   (* a failed Python [assert] *)
| ValueError (msg : string)
| KeyError (key : string)
| DanglingRef                     (* a reference outside its store: no Python counterpart *)
| OutOfFuel.                      (* the recursion bound of the embedding was reached *)

Definition M (St A : Type) : Type := St -> exn + (A * St).

Definition ret {St A} (a : A) : M St A := fun s => inr (a, s).
Definition raise {St A} (e : exn) : M St A := fun _ => inl e.
Definition bind {St A B} (m : M St A) (k : A -> M St B) : M St B :=
  fun s => match m s with
           | inl e => inl e
           | inr (a, s') => k a s'
           end.
Definition get {St} : M St St := fun s => inr (s, s).
Definition put {St} (s : St) : M St unit := fun _ => inr (tt, s).
Definition of_option {St A} (o : option A) : M St A :=
  match o with Some a => ret a | None => raise DanglingRef end.

Declare Scope py_scope.
Delimit Scope py_scope with py.
Notation "x <~ m ;; k" := (bind m (fun x => k))
  (at level 20, m at level 99, k at level 200, only parsing) : py_scope.
Notation "' p <~ m ;; k" := (bind m (fun p => k))
  (at level 20, p pattern, m at level 99, k at level 200, only parsing) : py_scope.
Notation "m ;;; k" := (bind m (fun _ => k))
  (at level 100, k at level 200, only parsing, right associativity) : py_scope.
Open Scope py_scope.

(** [for x in xs: body x] *)
Fixpoint for_each {St A} (xs : list A) (body : A -> M St unit) : M St unit :=
  match xs with
  | [] => ret tt
  | x :: xs' => body x ;;; for_each xs' body
  end.

(** [acc = init; for x in xs: acc = body acc x] *)
Fixpoint for_fold {St A B} (xs : list A) (acc : B) (body : B -> A -> M St B) : M St B :=
  match xs with
  | [] => ret acc
  | x :: xs' => acc' <~ body acc x ;; for_fold xs' acc' body
  end.

(** [for x in xs: r = f x; if r is not None: return r] and [return None] after the loop *)
Fixpoint for_first {St A B} (xs : list A) (f : A -> M St (option B)) : M St (option B) :=
  match xs with
  | [] => ret None
  | x :: xs' =>
      r <~ f x ;;
      match r with
      | Some b => ret (Some b)
      | None => for_first xs' f
      end
  end.

(** ** Opaque payloads *)

(** The values of the [Dict]s that travel through the tree (contexts and
    infos).  Only the [done] entry written by [step] is ever inspected. *)
Inductive value : Type :=
| VBool (b : bool)
| VInt (z : Z)
| VStr (s : string).

Abbreviation Dict := (gmap string value).

(** A reference: the index of an object in its store. *)
Abbreviation ref := nat.

(** The [GameMaster] and [Player] interfaces of clemcore, which the
    branching code consumes and never implements. *)
Class GameMasterOps : Type := {
  GM : Type;                                   (* the state of one game-master object *)
  Player : Type;
  gm_observe : GM -> Player * Dict;            (* [observe()] *)
  gm_step : GM -> string -> GM * (bool * Dict);(* [step(response)]: new state, done, info *)
  player_call : Player -> GM -> Dict -> GM * string
    (* [player(context)] for a player of the given master: the call may
       change that master's own object graph *)
}.

Section Branching.
Context `{Ops : GameMasterOps}.

(** ** tree.py: nodes on the heap *)

(** The attributes a [ResponseTreeNode] adds to a [GameTreeNode]. *)
Record ResponseAttrs : Type := {
  player : Player;
  context : Dict;
  response : string;
  done : bool;
  info : Dict
}.

Record GameTreeNode : Type := {
  _game_master : ref;          (* a game-master object *)
  _branches : ref;             (* a list object *)
  _parent : option ref;        (* a node object, or None *)
  _tags : ref;                 (* a set object *)
  _response : option ResponseAttrs   (* Some for a ResponseTreeNode *)
}.

Record heap : Type := {
  masters : list GM;
  nodes : list GameTreeNode;
  lists : list (list ref);
  sets : list (gset string)
}.

Definition with_nodes (ns : list GameTreeNode) (h : heap) : heap :=
  {| masters := masters h; nodes := ns; lists := lists h; sets := sets h |}.
Definition with_lists (ls : list (list ref)) (h : heap) : heap :=
  {| masters := masters h; nodes := nodes h; lists := ls; sets := sets h |}.
Definition with_sets (ss : list (gset string)) (h : heap) : heap :=
  {| masters := masters h; nodes := nodes h; lists := lists h; sets := ss |}.
Definition with_masters (ms : list GM) (h : heap) : heap :=
  {| masters := ms; nodes := nodes h; lists := lists h; sets := sets h |}.

Definition load_node (n : ref) : M heap GameTreeNode :=
  h <~ get ;; of_option (nodes h !! n).
Definition load_list (l : ref) : M heap (list ref) :=
  h <~ get ;; of_option (lists h !! l).
Definition load_set (t : ref) : M heap (gset string) :=
  h <~ get ;; of_option (sets h !! t).
Definition load_master (m : ref) : M heap GM :=
  h <~ get ;; of_option (masters h !! m).

Definition store_node (n : ref) (nd : GameTreeNode) : M heap unit :=
  h <~ get ;;
  if decide (n < length (nodes h)) then put (with_nodes (<[n := nd]> (nodes h)) h)
  else raise DanglingRef.
Definition store_list (l : ref) (bs : list ref) : M heap unit :=
  h <~ get ;;
  if decide (l < length (lists h)) then put (with_lists (<[l := bs]> (lists h)) h)
  else raise DanglingRef.
Definition store_set (t : ref) (s : gset string) : M heap unit :=
  h <~ get ;;
  if decide (t < length (sets h)) then put (with_sets (<[t := s]> (sets h)) h)
  else raise DanglingRef.
Definition store_master (m : ref) (g : GM) : M heap unit :=
  h <~ get ;;
  if decide (m < length (masters h)) then put (with_masters (<[m := g]> (masters h)) h)
  else raise DanglingRef.

Definition alloc_node (nd : GameTreeNode) : M heap ref :=
  h <~ get ;; put (with_nodes (nodes h ++ [nd]) h) ;;; ret (length (nodes h)).
Definition alloc_list (bs : list ref) : M heap ref :=
  h <~ get ;; put (with_lists (lists h ++ [bs]) h) ;;; ret (length (lists h)).
Definition alloc_set (s : gset string) : M heap ref :=
  h <~ get ;; put (with_sets (sets h ++ [s]) h) ;;; ret (length (sets h)).
Definition alloc_master (g : GM) : M heap ref :=
  h <~ get ;; put (with_masters (masters h ++ [g]) h) ;;; ret (length (masters h)).

(** [GameTreeNode.__init__] and [ResponseTreeNode.__init__]: a new node
    with a new empty list and a new empty set. *)
Definition new_node (game_master : ref) (attrs : option ResponseAttrs) : M heap ref :=
  l <~ alloc_list [] ;;
  t <~ alloc_set ∅ ;;
  alloc_node {| _game_master := game_master; _branches := l; _parent := None;
                _tags := t; _response := attrs |}.

(** The [branches] property: the list object itself, and its setter. *)
Definition branches (n : ref) : M heap ref :=
  nd <~ load_node n ;; ret (_branches nd).
Definition set_branches (n : ref) (l : ref) : M heap unit :=
  nd <~ load_node n ;;
  store_node n {| _game_master := _game_master nd; _branches := l;
                  _parent := _parent nd; _tags := _tags nd;
                  _response := _response nd |}.

Definition parent (n : ref) : M heap (option ref) :=
  nd <~ load_node n ;; ret (_parent nd).

Definition tag (n : ref) (t : string) : M heap unit :=
  nd <~ load_node n ;;
  s <~ load_set (_tags nd) ;;
  store_set (_tags nd) ({[ t ]} ∪ s).

(** [set.remove] raises [KeyError] for an element that is not there. *)
Definition untag (n : ref) (t : string) : M heap unit :=
  nd <~ load_node n ;;
  s <~ load_set (_tags nd) ;;
  if bool_decide (t ∈ s) then store_set (_tags nd) (s ∖ {[ t ]})
  else raise (KeyError t).

Definition has_tag (n : ref) (t : string) : M heap bool :=
  nd <~ load_node n ;;
  s <~ load_set (_tags nd) ;;
  ret (bool_decide (t ∈ s)).

(** [__iter__]: the elements of the node's list object. *)
Definition iter (n : ref) : M heap (list ref) :=
  nd <~ load_node n ;; load_list (_branches nd).

(** [__bool__] *)
Definition node_bool (n : ref) : M heap bool :=
  bs <~ iter n ;; ret (match bs with [] => false | _ => true end).

Definition unwrap (n : ref) : M heap ref :=
  nd <~ load_node n ;; ret (_game_master nd).

(** [wraps]: object identity of the wrapped game master. *)
Definition wraps (n : ref) (game_master : ref) : M heap bool :=
  nd <~ load_node n ;; ret (bool_decide (_game_master nd = game_master)).

(** [branch_node in self._branches]: nodes define no [__eq__], so
    membership is by identity. *)
Definition connect_to (self branch_node : ref) : M heap unit :=
  nd <~ load_node self ;;
  bs <~ load_list (_branches nd) ;;
  if bool_decide (branch_node ∈ bs) then ret tt
  else
    store_list (_branches nd) (bs ++ [branch_node]) ;;;
    cd <~ load_node branch_node ;;
    store_node branch_node
      {| _game_master := _game_master cd; _branches := _branches cd;
         _parent := Some self; _tags := _tags cd; _response := _response cd |}.

(** [copy.copy(node)]: a new node object whose attributes are the very
    same objects, so the copy shares its list and its set with the
    original until one of the two attributes is rebound. *)
Definition copy (n : ref) : M heap ref :=
  nd <~ load_node n ;; alloc_node nd.

(** ** tree.py: [GameTree] *)

Record GameTree : Type := { root : ref }.

Fixpoint _find_node (fuel : nat) (target_master : ref) (node : ref)
  : M heap (option ref) :=
  match fuel with
  | 0 => raise OutOfFuel
  | S fuel' =>
      w <~ wraps node target_master ;;
      if w then ret (Some node)
      else
        bs <~ iter node ;;
        for_first bs (_find_node fuel' target_master)
  end.

(** Python recurses as deep as the tree is; [recursion_bound] is that
    depth's bound in a store of nodes whose links form a tree. *)
Definition recursion_bound (h : heap) : nat := S (length (nodes h)).

Definition find_node (self : GameTree) (target_master : ref) : M heap (option ref) :=
  h <~ get ;; _find_node (recursion_bound h) target_master (root self).

Fixpoint _find_leaves (fuel : nat) (node : ref) : M heap (list ref) :=
  match fuel with
  | 0 => raise OutOfFuel
  | S fuel' =>
      b <~ node_bool node ;;
      if negb b then ret [node]
      else
        bs <~ iter node ;;
        for_fold bs [] (fun leaves branch =>
          ls <~ _find_leaves fuel' branch ;; ret (leaves ++ ls))
  end.

Definition find_leaves (self : GameTree) : M heap (list ref) :=
  h <~ get ;; _find_leaves (recursion_bound h) (root self).

(** ** player.py *)

Record BranchingStep : Type := {
  parent_master : ref;
  parent_player : Player;
  parent_context : Dict;
  branch_master : ref;
  branch_response : string
}.

(** [BranchingStep.apply]: steps the branch master in place. *)
Definition apply (self : BranchingStep) : M heap (bool * Dict) :=
  g <~ load_master (branch_master self) ;;
  let (g', r) := gm_step g (branch_response self) in
  store_master (branch_master self) g' ;;; ret r.

(** [deepcopy(master)]: a new object with an equal state. *)
Definition deepcopy (m : ref) : M heap ref :=
  g <~ load_master m ;; alloc_master g.

(** One turn of the loop [for _ in range(current_branching_factor)]. *)
Definition branch_once (parent_master : ref) (parent_player : Player)
    (parent_context : Dict) : M heap BranchingStep :=
  branch_master <~ deepcopy parent_master ;;
  gb <~ load_master branch_master ;;
  let (branch_player, branch_context) := gm_observe gb in
  let (gb', branch_response_text) := player_call branch_player gb parent_context in
  store_master branch_master gb' ;;;
  ret {| parent_master := parent_master; parent_player := parent_player;
         parent_context := parent_context; branch_master := branch_master;
         branch_response := branch_response_text |}.

(** [range(n)] for a Python int: empty when [n <= 0]. *)
Definition range (n : Z) : list nat := seq 0 (Z.to_nat n).

Definition branching_response (parent_masters : list ref)
    (branching_factor : Z) (branching_criteria : GM -> bool)
  : M heap (list (list BranchingStep)) :=
  for_fold parent_masters [] (fun all_branching_steps parent_master =>
    g <~ load_master parent_master ;;
    let (parent_player, parent_context) := gm_observe g in
    let current_branching_factor :=
      if branching_criteria g then branching_factor else 1%Z in
    branching_steps <~
      for_fold (range current_branching_factor) [] (fun branching_steps _ =>
        st <~ branch_once parent_master parent_player parent_context ;;
        ret (branching_steps ++ [st])) ;;
    ret (all_branching_steps ++ [branching_steps])).

(** ** master.py *)

(** The error of the [assert] in [add_branch_to]. *)
Definition missing_parent : exn :=
  AssertionError "There must be a parent node that wraps the candidates parent env".

(** [BranchingCandidate]; its attributes are [response], [done] and
    [info] in the source, prefixed here because [ResponseTreeNode] has
    attributes of the same names. *)
Record BranchingCandidate : Type := {
  cand_response : BranchingStep;
  cand_done : bool;
  cand_info : Dict
}.

Definition add_branch_to (self : BranchingCandidate) (game_tree : GameTree)
  : M heap unit :=
  parent_node <~ find_node game_tree (parent_master (cand_response self)) ;;
  match parent_node with
  | None => raise missing_parent
  | Some parent_node =>
      branch_node <~
        new_node (branch_master (cand_response self))
          (Some {| player := parent_player (cand_response self);
                   context := parent_context (cand_response self);
                   response := branch_response (cand_response self);
                   done := cand_done self;
                   info := cand_info self |}) ;;
      connect_to parent_node branch_node
  end.

Record BranchingGameMaster : Type := {
  _root : ref;
  _done : bool;
  _game_tree : GameTree;
  _active_parent_masters : list ref;
  _branching_factor : Z;
  _branching_criteria : GM -> bool
}.

(** [BranchingGameMaster.__init__] *)
Definition init (game_master : ref) (branching_factor : Z)
    (branching_criteria : GM -> bool) : M heap BranchingGameMaster :=
  if decide (0 < branching_factor)%Z then
    root_node <~ new_node game_master None ;;
    ret {| _root := game_master; _done := false;
           _game_tree := {| root := root_node |};
           _active_parent_masters := [game_master];
           _branching_factor := branching_factor;
           _branching_criteria := branching_criteria |}
  else raise (AssertionError "The branching factor must be greater than zero").

(** [observe]: the generator bound to the factor and the criteria, and
    the active parents. *)
Definition observe (self : BranchingGameMaster)
  : (list ref -> M heap (list (list BranchingStep))) * list ref :=
  (fun parent_masters =>
     branching_response parent_masters (_branching_factor self)
       (_branching_criteria self),
   _active_parent_masters self).

(** The first loop of [step]: one group of branching steps. *)
Definition apply_group (candidates : list BranchingCandidate)
    (branching_steps : list BranchingStep)
  : M heap (list Dict * list BranchingCandidate) :=
  for_fold branching_steps ([], candidates) (fun '(infos, candidates) branching_step =>
    '(done, info) <~ apply branching_step ;;
    let info := <["done" := VBool done]> info in
    ret (infos ++ [info],
         candidates ++ [{| cand_response := branching_step;
                           cand_done := done; cand_info := info |}])).

Definition apply_all (all_branching_steps : list (list BranchingStep))
  : M heap (list (list Dict) * list BranchingCandidate) :=
  for_fold all_branching_steps ([], []) (fun '(all_infos, candidates) branching_steps =>
    '(infos, candidates) <~ apply_group candidates branching_steps ;;
    ret (all_infos ++ [infos], candidates)).

(** The second loop of [step]: attach every candidate and collect the
    new active parents. *)
Definition attach_all (game_tree : GameTree) (candidates : list BranchingCandidate)
  : M heap (list ref) :=
  for_fold candidates [] (fun active candidate =>
    add_branch_to candidate game_tree ;;;
    ret (active ++ [branch_master (cand_response candidate)])).

Definition all (bs : list bool) : bool := forallb id bs.

Definition step (self : BranchingGameMaster)
    (all_branching_steps : list (list BranchingStep))
  : M heap (BranchingGameMaster * (bool * list (list Dict))) :=
  '(all_infos, candidates) <~ apply_all all_branching_steps ;;
  let done := all (map cand_done candidates) in
  active <~ attach_all (_game_tree self) candidates ;;
  ret ({| _root := _root self; _done := done; _game_tree := _game_tree self;
          _active_parent_masters := active;
          _branching_factor := _branching_factor self;
          _branching_criteria := _branching_criteria self |},
       (done, all_infos)).

Definition is_done (self : BranchingGameMaster) : bool := _done self.

Fixpoint label_active_recursive (fuel : nat) (active_node : ref) : M heap unit :=
  match fuel with
  | 0 => raise OutOfFuel
  | S fuel' =>
      tag active_node "active" ;;;
      p <~ parent active_node ;;
      match p with
      | None => ret tt
      | Some p =>
          b <~ node_bool p ;;     (* [if active_node.parent:] is [__bool__] *)
          if b then label_active_recursive fuel' p else ret tt
      end
  end.

Fixpoint copy_active_tree_recursive (fuel : nat) (active_node : ref) : M heap unit :=
  match fuel with
  | 0 => raise OutOfFuel
  | S fuel' =>
      _copy <~ copy active_node ;;
      bs <~ iter active_node ;;
      kept <~ for_fold bs [] (fun kept node =>
                b <~ has_tag node "active" ;;
                ret (if b then kept ++ [node] else kept)) ;;
      l <~ alloc_list kept ;;
      set_branches _copy l ;;;
      bs' <~ iter _copy ;;
      for_each bs' (copy_active_tree_recursive fuel')
  end.

Definition get_active_tree (self : BranchingGameMaster) : M heap GameTree :=
  leaves <~ find_leaves (_game_tree self) ;;
  active_leaves <~
    for_fold leaves [] (fun active_leaves leave =>
      m <~ unwrap leave ;;
      ret (if bool_decide (m ∈ _active_parent_masters self)
           then active_leaves ++ [leave] else active_leaves)) ;;
  h <~ get ;;
  for_each active_leaves (label_active_recursive (recursion_bound h)) ;;;
  active_root <~ copy (root (_game_tree self)) ;;
  h' <~ get ;;
  copy_active_tree_recursive (recursion_bound h') active_root ;;;
  ret {| root := active_root |}.

(** ** Reading the heap: the vocabulary of the statements *)

(** The elements of the list object bound to a node's [_branches]. *)
Definition children (h : heap) (n : ref) : list ref :=
  match nodes h !! n with
  | Some nd => default [] (lists h !! _branches nd)
  | None => []
  end.

Definition parent_of (h : heap) (n : ref) : option ref :=
  nodes h !! n ≫= _parent.

Definition master_of (h : heap) (n : ref) : option ref :=
  _game_master <$> nodes h !! n.

(** The contents of the set object bound to a node's [_tags]. *)
Definition tags_of (h : heap) (n : ref) : gset string :=
  match nodes h !! n with
  | Some nd => default ∅ (sets h !! _tags nd)
  | None => ∅
  end.

(** The nodes of the tree rooted at [r]: what a walk along [_branches]
    can visit. *)
Inductive reach (h : heap) (r : ref) : ref -> Prop :=
| reach_root : reach h r r
| reach_child p c : reach h r p -> c ∈ children h p -> reach h r c.

(** [anc h n a]: [a] is [n] or one of its ancestors along [_parent]. *)
Definition anc (h : heap) : ref -> ref -> Prop :=
  rtc (fun n p => parent_of h n = Some p).

(** A leaf of the tree that wraps one of the active parents. *)
Definition active_leaf (h : heap) (self : BranchingGameMaster) (l : ref) : Prop :=
  reach h (root (_game_tree self)) l /\ children h l = [] /\
  exists m, master_of h l = Some m /\ m ∈ _active_parent_masters self.


(** No node of the tree wraps the game master [m]. *)
Definition unwrapped (h : heap) (r : ref) (m : ref) : Prop :=
  forall n, reach h r n -> master_of h n <> Some m.

(** The shape the constructor and [add_branch_to] give the store: every
    node of the tree is live with a live list and a live set of its own,
    a child is younger than its parent and points back to it, and the
    root has no parent. *)
Record tree_inv (h : heap) (r : ref) : Prop := {
  inv_live : forall n, reach h r n ->
    exists nd bs s, nodes h !! n = Some nd /\ lists h !! _branches nd = Some bs /\
                    sets h !! _tags nd = Some s;
  inv_child : forall p c, reach h r p -> c ∈ children h p ->
    p < c /\ parent_of h c = Some p;
  inv_own : forall n m nd md, reach h r n -> reach h r m ->
    nodes h !! n = Some nd -> nodes h !! m = Some md ->
    _branches nd = _branches md \/ _tags nd = _tags md -> n = m;
  inv_root : parent_of h r = None
}.

(** The store after [add_branch_to] has attached a new node wrapping
    [bm] under the node [p]. *)
Definition attached (h : heap) (p bm : ref) (attrs : option ResponseAttrs) : heap :=
  let b := length (nodes h) in
  {| masters := masters h;
     nodes := nodes h ++ [{| _game_master := bm; _branches := length (lists h);
                             _parent := Some p; _tags := length (sets h);
                             _response := attrs |}];
     lists := match nodes h !! p with
              | Some nd => <[_branches nd := children h p ++ [b]]> (lists h ++ [[]])
              | None => lists h ++ [[]]
              end;
     sets := sets h ++ [∅] |}.

(** [applied sts h rs h']: running [apply] on the steps [sts] in order
    from the store [h] reports [rs], one result per step, and leaves [h']. *)
Inductive applied : list BranchingStep -> heap -> list (bool * Dict) -> heap -> Prop :=
| applied_nil h : applied [] h [] h
| applied_cons st sts h r h1 rs h2 :
    apply st h = inr (r, h1) -> applied sts h1 rs h2 ->
    applied (st :: sts) h (r :: rs) h2.

(** The info [step] records for a result of [apply], and the candidate
    it builds from it. *)
Definition info_of (r : bool * Dict) : Dict := <["done" := VBool r.1]> r.2.
Definition candidate_of (st : BranchingStep) (r : bool * Dict) : BranchingCandidate :=
  {| cand_response := st; cand_done := r.1; cand_info := info_of r |}.

(** Two stores with the same nodes, lists and sets (the game masters may differ). *)
Definition same_tree (h h' : heap) : Prop :=
  nodes h' = nodes h /\ lists h' = lists h /\ sets h' = sets h.

(** Two stores with the same nodes and lists, and as many sets. *)
Definition same_shape (h h' : heap) : Prop :=
  nodes h' = nodes h /\ lists h' = lists h /\ length (sets h') = length (sets h).

(** [extends h h']: [h'] has every node and list of [h], and further
    ones; sets and game masters are those of [h]. *)
Definition extends (h h' : heap) : Prop :=
  (forall n nd, nodes h !! n = Some nd -> nodes h' !! n = Some nd) /\
  (forall l bs, lists h !! l = Some bs -> lists h' !! l = Some bs) /\
  sets h' = sets h /\ masters h' = masters h.

(** [grown h h' r new]: the tree of [h'] is the tree of [h] with its
    nodes untouched in tags and wrapped master, and with further nodes
    that carry no tag and wrap masters of [new]. *)
Record grown (h h' : heap) (r : ref) (new : list ref) : Prop := {
  grown_inv : tree_inv h' r;
  grown_old : forall n, reach h r n ->
    reach h' r n /\ tags_of h' n = tags_of h n /\ master_of h' n = master_of h n;
  grown_new : forall n, reach h' r n ->
    reach h r n \/ (tags_of h' n = ∅ /\ exists m, m ∈ new /\ master_of h' n = Some m)
}.

Definition live_master (h : heap) (st : BranchingStep) : Prop :=
  branch_master st < length (masters h).

(** [clone_of h h' p st]: the step [st] was made for the parent [p];
    its branch handle is an object that [h] does not have, and in [h']
    that object holds the state [p] has in [h], after its own player has
    answered the parent's context. *)
Definition clone_of (h h' : heap) (p : ref) (st : BranchingStep) : Prop :=
  parent_master st = p /\ length (masters h) <= branch_master st /\
  exists g, masters h !! p = Some g /\
    parent_player st = (gm_observe g).1 /\
    parent_context st = (gm_observe g).2 /\
    masters h' !! branch_master st =
      Some (player_call (gm_observe g).1 g (gm_observe g).2).1 /\
    branch_response st = (player_call (gm_observe g).1 g (gm_observe g).2).2.

(** Every game master of [h] is in [h'], in the same state. *)
Definition masters_kept (h h' : heap) : Prop :=
  forall m g, masters h !! m = Some g -> masters h' !! m = Some g.

(** What a call of [step] may be given: every branch handle is a live
    game master and every parent handle is wrapped by a node of the tree. *)
Definition steps_ok (h : heap) (r : ref) (sts : list BranchingStep) : Prop :=
  Forall (fun st => live_master h st /\
                    exists n, reach h r n /\ master_of h n = Some (parent_master st)) sts.

(** The states the orchestrator goes through, with the stores at which
    [get_active_tree] was called so far (latest first).  Between two
    calls the environment may create and step game masters at will. *)
Inductive history : heap -> BranchingGameMaster -> list (heap * BranchingGameMaster) -> Prop :=
| history_init h0 gm f crit self h :
    init gm f crit h0 = inr (self, h) ->
    history h self []
| history_env h self past ms :
    history h self past ->
    history (with_masters ms h) self past
| history_step h self past sts self' r h' :
    history h self past ->
    step self sts h = inr ((self', r), h') ->
    history h' self' past
| history_extract h self past t h' :
    history h self past ->
    get_active_tree self h = inr (t, h') ->
    history h' self ((h, self) :: past).

End Branching.

(** * The dynamic batch loader *)

Module Batchwise.

(** ** tests/test_dynamic_batch_loader.py: the mock environment *)

Record MockPlayer : Type := { name : string }.

Record MockGameMasterEnv : Type := {
  _session_id : nat;
  _done_after : Z;
  _observe_count : Z;
  agent_selection : string;
  terminations : gmap string bool;
  player_by_agent_id : gmap string MockPlayer
}.

(** [MockGameMasterEnv(session_id, done_after=...)] *)
Definition mock_env (session_id : nat) (done_after : Z) : MockGameMasterEnv :=
  {| _session_id := session_id;
     _done_after := done_after;
     _observe_count := 0;
     agent_selection := "player_0";
     terminations := {[ "player_0" := false ]};
     player_by_agent_id := {[ "player_0" := {| name := "player_" +:+ pretty session_id |} ]} |}.

(** [env.terminations["player_0"] = True], as the tests do to an
    environment that is done from the start. *)
Definition mark_done (env : MockGameMasterEnv) : MockGameMasterEnv :=
  {| _session_id := _session_id env;
     _done_after := _done_after env;
     _observe_count := _observe_count env;
     agent_selection := agent_selection env;
     terminations := <["player_0" := true]> (terminations env);
     player_by_agent_id := player_by_agent_id env |}.

(** [last]: context, reward, termination, truncation, info.  The reward
    is the constant 0.0 of the mock. *)
Definition last (env : MockGameMasterEnv)
  : (Dict * Z * bool * bool * Dict) * MockGameMasterEnv :=
  let count := (_observe_count env + 1)%Z in
  let context : Dict :=
    <["turn" := VInt count]> (<["session" := VInt (Z.of_nat (_session_id env))]> ∅) in
  let termination := bool_decide (_done_after env < count)%Z in
  ((context, 0%Z, termination, false, ∅),
   {| _session_id := _session_id env;
      _done_after := _done_after env;
      _observe_count := count;
      agent_selection := agent_selection env;
      terminations := if termination then <["player_0" := true]> (terminations env)
                      else terminations env;
      player_by_agent_id := player_by_agent_id env |}).

(** ** The session, the poller and the loader *)

(** Modelled from the spec: [GameSession], [SinglePassGameSessionPoller]
    and [DynamicBatchDataLoader] of clemcore.clemgame.runners.batchwise,
    which the tests import and which is not among the sources.  A
    session reads its handle with [last], the one reading the mock
    offers, and the handle is done when [last] reports termination or
    truncation. *)
Record GameSession : Type := {
  session_id : nat;
  game_env : MockGameMasterEnv;
  game_instance : Dict
}.

Definition Observation : Type := nat * MockPlayer * Dict.

(** Modelled from the spec: polling yields nothing when the handle is
    done, and one observation [(session_id, player, context)] of the
    handle's current state otherwise. *)
Definition poll (s : GameSession) : exn + (option Observation * GameSession) :=
  let '((context, _, termination, truncation, _), env) := last (game_env s) in
  let s' := {| session_id := session_id s; game_env := env;
               game_instance := game_instance s |} in
  if termination || truncation then inr (None, s')
  else
    match player_by_agent_id env !! agent_selection env with
    | Some player => inr (Some (session_id s, player, context), s')
    | None => inl (KeyError (agent_selection env))
    end.

(** Modelled from the spec: the default collation decomposes a list of
    observations into three parallel sequences. *)
Definition collate_fn (batch : list Observation) : list nat * list MockPlayer * list Dict :=
  (map (fun o => o.1.1) batch, map (fun o => o.1.2) batch, map (fun o => o.2) batch).

(** Modelled from the spec: the poller owns the sessions in their input
    order and the exhaustion table, session id to boolean. *)
Record SinglePassGameSessionPoller : Type := {
  sessions : list GameSession;
  exhausted : gmap nat bool
}.

Definition new_poller (ss : list GameSession) : SinglePassGameSessionPoller :=
  {| sessions := ss;
     exhausted := list_to_map (map (fun s => (session_id s, false)) ss) |}.

Definition is_exhausted (table : gmap nat bool) (s : GameSession) : bool :=
  default false (table !! session_id s).

(** Modelled from the spec: for each session in input order, if it is
    not marked exhausted, poll it; an empty poll marks it exhausted and
    contributes nothing, an observation is appended to the result. *)
Fixpoint poll_sessions (ss : list GameSession) (table : gmap nat bool)
  : exn + (list Observation * list GameSession * gmap nat bool) :=
  match ss with
  | [] => inr ([], [], table)
  | s :: rest =>
      if is_exhausted table s then
        match poll_sessions rest table with
        | inl e => inl e
        | inr (obs, rest', table') => inr (obs, s :: rest', table')
        end
      else
        match poll s with
        | inl e => inl e
        | inr (None, s') =>
            match poll_sessions rest (<[session_id s := true]> table) with
            | inl e => inl e
            | inr (obs, rest', table') => inr (obs, s' :: rest', table')
            end
        | inr (Some o, s') =>
            match poll_sessions rest table with
            | inl e => inl e
            | inr (obs, rest', table') => inr (o :: obs, s' :: rest', table')
            end
        end
  end.

Definition poll_pass (p : SinglePassGameSessionPoller)
  : exn + (list Observation * SinglePassGameSessionPoller) :=
  match poll_sessions (sessions p) (exhausted p) with
  | inl e => inl e
  | inr (obs, ss, table) => inr (obs, {| sessions := ss; exhausted := table |})
  end.

Definition all_exhausted (p : SinglePassGameSessionPoller) : bool :=
  forallb (is_exhausted (exhausted p)) (sessions p).

(** Consecutive chunks of at most [b] items, in order; a list has at
    most as many chunks as items when [b] is positive. *)
Fixpoint chunks_aux {A} (fuel b : nat) (xs : list A) : list (list A) :=
  match fuel with
  | 0 => []
  | S fuel' =>
      match xs with
      | [] => []
      | _ => take b xs :: chunks_aux fuel' b (drop b xs)
      end
  end.

Definition chunks {A} (b : nat) (xs : list A) : list (list A) :=
  chunks_aux (length xs) b xs.

Record DynamicBatchDataLoader : Type := {
  poller : SinglePassGameSessionPoller;
  batch_size : Z
}.

(** Modelled from the spec: a batch size that is not positive is
    rejected at construction. *)
Definition new_loader (p : SinglePassGameSessionPoller) (batch_size : Z)
  : exn + DynamicBatchDataLoader :=
  if decide (0 < batch_size)%Z then inr {| poller := p; batch_size := batch_size |}
  else inl (ValueError "batch_size must be positive").

(** Modelled from the spec: each scheduling step asks the poller for one
    pass; a pass that is not empty is cut into chunks, one batch per
    chunk; an empty pass ends the iteration.  [fuel] bounds the number
    of passes: sessions that never finish make the loop run for ever. *)
Fixpoint loader_iter (fuel : nat) (p : SinglePassGameSessionPoller) (batch_size : Z)
  : exn + (list (list nat * list MockPlayer * list Dict) * SinglePassGameSessionPoller) :=
  match fuel with
  | 0 => inl OutOfFuel
  | S fuel' =>
      match poll_pass p with
      | inl e => inl e
      | inr ([], p') => inr ([], p')
      | inr (obs, p') =>
          match loader_iter fuel' p' batch_size with
          | inl e => inl e
          | inr (batches, p'') =>
              inr (map collate_fn (chunks (Z.to_nat batch_size) obs) ++ batches, p'')
          end
      end
  end.

Definition iterate (fuel : nat) (l : DynamicBatchDataLoader) :=
  loader_iter fuel (poller l) (batch_size l).

(** The turn counter of an observation's context. *)
Definition turn_of (context : Dict) : option value := context !! "turn".

(** ** The scenarios of the tests *)

(** [test_handles_single_session] *)
Definition single_session : SinglePassGameSessionPoller :=
  new_poller [{| session_id := 0; game_env := mock_env 0 3; game_instance := ∅ |}].

(** [test_skips_exhausted_sessions]: session 1 is done from the start. *)
Definition one_done : SinglePassGameSessionPoller :=
  new_poller [{| session_id := 0; game_env := mock_env 0 5; game_instance := ∅ |};
              {| session_id := 1; game_env := mark_done (mock_env 1 0); game_instance := ∅ |};
              {| session_id := 2; game_env := mock_env 2 5; game_instance := ∅ |}].

(** Sessions 0 and 2 active, session 1 marked exhausted in the table,
    whatever its environment. *)
Definition one_marked (env1 : MockGameMasterEnv) : SinglePassGameSessionPoller :=
  {| sessions :=
       [{| session_id := 0; game_env := mock_env 0 5; game_instance := ∅ |};
        {| session_id := 1; game_env := env1; game_instance := ∅ |};
        {| session_id := 2; game_env := mock_env 2 5; game_instance := ∅ |}];
     exhausted := <[1 := true]> (<[0 := false]> (<[2 := false]> ∅)) |}.

End Batchwise.

(** * A small game to run the orchestrator on *)

(** A game master that counts its remaining turns down: two players
    alternate, every answer is the same word, and a step reports done
    when it was the last turn. *)
Definition countdown : GameMasterOps :=
  {| GM := nat;
     Player := nat;
     gm_observe := fun g => (g mod 2, ∅);
     gm_step := fun g _ => (pred g, (bool_decide (g <= 1), ∅));
     player_call := fun _ g _ => (g, "go") |}.

Definition always : @GM countdown -> bool := fun _ => true.

(** One game master with three turns to go, and no tree yet. *)
Definition ex_h0 : @heap countdown :=
  @Build_heap countdown [3] [] [] [].

(** The orchestrator and the store after [__init__] with factor 2. *)
Definition ex_self0 : @BranchingGameMaster countdown :=
  @Build_BranchingGameMaster countdown 0 false {| root := 0 |} [0] 2 always.

Definition ex_h1 : @heap countdown :=
  @Build_heap countdown [3] [@Build_GameTreeNode countdown 0 0 None 0 None] [[]] [∅].

Definition ex_step (parent branch : ref) (who : nat) : @BranchingStep countdown :=
  @Build_BranchingStep countdown parent who ∅ branch "go".

(** The two candidates the generator makes for the root, and the store
    with their two clones. *)
Definition ex_round1 : list (list (@BranchingStep countdown)) :=
  [[ex_step 0 1 1; ex_step 0 2 1]].

Definition ex_h2 : @heap countdown := @with_masters countdown [3; 3; 3] ex_h1.

(** A store with two unconnected nodes. *)
Definition ex_two : @heap countdown :=
  @Build_heap countdown [3; 3]
    [@Build_GameTreeNode countdown 0 0 None 0 None;
     @Build_GameTreeNode countdown 1 1 None 1 None]
    [[]; []] [∅; ∅].

(** A candidate whose parent handle, 7, is no object of the tree. *)
Definition ex_orphan : list (list (@BranchingStep countdown)) :=
  [[ex_step 0 1 1; ex_step 7 2 1]].

(** A driving loop that branches twice from the root and then continues
    the first branch only, before it asks for the active tree. *)
Definition pruned_rollout : M (@heap countdown) (GameTree * @BranchingGameMaster countdown) :=
  self <~ init 0 2 always ;;
  groups <~ (observe self).1 (observe self).2 ;;
  '(self, _) <~ step self groups ;;
  groups <~ (observe self).1 (take 1 (observe self).2) ;;
  '(self, _) <~ step self groups ;;
  t <~ get_active_tree self ;;
  ret (t, self).

(** A caller that hangs a new node under the root of the tree it was
    returned. *)
Definition grow_returned (t : GameTree) : M (@heap countdown) ref :=
  b <~ new_node 0 None ;;
  connect_to (root t) b ;;;
  ret b.

(** * Proofs *)

(** ** The monad *)

Lemma bind_inr {St A B} (m : M St A) (k : A -> M St B) s r :
  bind m k s = inr r <-> exists a s', m s = inr (a, s') /\ k a s' = inr r.
Proof.
  unfold bind. destruct (m s) as [e|[a s']]; split.
  - discriminate.
  - intros (a & s' & H & _). discriminate.
  - eauto.
  - intros (a0 & s0 & H & Hk). by simplify_eq.
Qed.

Lemma bind_ok {St A B} (m : M St A) (k : A -> M St B) s a s' :
  m s = inr (a, s') -> bind m k s = k a s'.
Proof. unfold bind. by intros ->. Qed.

Lemma bind_inl {St A B} (m : M St A) (k : A -> M St B) s e :
  m s = inl e -> bind m k s = inl e.
Proof. unfold bind. by intros ->. Qed.

(** A loop whose body keeps an invariant indexed by the elements done so
    far runs to its end and establishes the invariant for the whole list. *)
Lemma for_fold_total {St A B} (P : list A -> B -> St -> Prop)
    (xs : list A) (body : B -> A -> M St B) :
  forall pre acc s,
  P pre acc s ->
  (forall pre' x acc s, (exists post, pre ++ xs = pre' ++ x :: post) ->
     length pre <= length pre' ->
     P pre' acc s -> exists acc' s', body acc x s = inr (acc', s') /\ P (pre' ++ [x]) acc' s') ->
  exists acc' s', for_fold xs acc body s = inr (acc', s') /\ P (pre ++ xs) acc' s'.
Proof.
  induction xs as [|x xs IH]; intros pre acc s HP Hbody; simpl.
  - exists acc, s. by rewrite app_nil_r.
  - destruct (Hbody pre x acc s) as (acc1 & s1 & Hb & HP1); [by eexists|lia|done|].
    rewrite (bind_ok _ _ _ _ _ Hb).
    destruct (IH (pre ++ [x]) acc1 s1 HP1) as (acc2 & s2 & Hf & HP2).
    + intros pre' y acc' s' [post Hpost] Hlen HP'.
      apply Hbody; [|rewrite length_app in Hlen; simpl in Hlen; lia|done].
      exists post. by rewrite <- Hpost, <- app_assoc.
    + exists acc2, s2. split; [done|]. by rewrite <- app_assoc in HP2.
Qed.

(** The same invariant rule for the runs that return, whatever the body
    does on the others. *)
Lemma for_fold_partial {St A B} (P : list A -> B -> St -> Prop)
    (xs : list A) (body : B -> A -> M St B) :
  forall pre acc s acc' s',
  P pre acc s ->
  (forall pre' x acc s acc' s', P pre' acc s -> body acc x s = inr (acc', s') ->
     P (pre' ++ [x]) acc' s') ->
  for_fold xs acc body s = inr (acc', s') ->
  P (pre ++ xs) acc' s'.
Proof.
  induction xs as [|x xs IH]; intros pre acc s acc' s' HP Hbody; simpl.
  - unfold ret. intros [= <- <-]. by rewrite app_nil_r.
  - intros (acc1 & s1 & Hb & Hf)%bind_inr.
    replace (pre ++ x :: xs) with ((pre ++ [x]) ++ xs) by by rewrite <- app_assoc.
    eapply IH; [|done|done]. eauto.
Qed.

Lemma for_each_total {St A} (P : list A -> St -> Prop)
    (xs : list A) (body : A -> M St unit) :
  forall pre s,
  P pre s ->
  (forall pre' x s, (exists post, pre ++ xs = pre' ++ x :: post) ->
     P pre' s -> exists s', body x s = inr (tt, s') /\ P (pre' ++ [x]) s') ->
  exists s', for_each xs body s = inr (tt, s') /\ P (pre ++ xs) s'.
Proof.
  induction xs as [|x xs IH]; intros pre s HP Hbody; simpl.
  - exists s. by rewrite app_nil_r.
  - destruct (Hbody pre x s) as (s1 & Hb & HP1); [by eexists|done|].
    rewrite (bind_ok _ _ _ _ _ Hb).
    destruct (IH (pre ++ [x]) s1 HP1) as (s2 & Hf & HP2).
    + intros pre' y s' [post Hpost] HP'. apply Hbody; [|done].
      exists post. by rewrite <- Hpost, <- app_assoc.
    + exists s2. split; [done|]. by rewrite <- app_assoc in HP2.
Qed.

Ltac munfold :=
  unfold tag, untag, has_tag, iter, node_bool, unwrap, wraps, parent, branches,
    set_branches, copy, new_node, deepcopy,
    load_node, load_list, load_set, load_master,
    store_node, store_list, store_set, store_master,
    alloc_node, alloc_list, alloc_set, alloc_master,
    bind, get, put, of_option, ret, raise in *.

Section BranchingProofs.
Context `{Ops : GameMasterOps}.

Implicit Types (h : heap) (n p r m : ref).

(** ** [connect_to] *)

Lemma children_lookup h n nd bs :
  nodes h !! n = Some nd -> lists h !! _branches nd = Some bs -> children h n = bs.
Proof. unfold children. by intros -> ->. Qed.

(** C9. Connecting the same node twice: the second call changes nothing,
    so the parent's list of children is the one the first call left (the
    old list when the child was already in it, the old list with the
    child appended otherwise), and a child the first call connected
    still has this parent as its [_parent]. *)
Theorem connect_to_idempotent h p c nd bs cd :
  nodes h !! p = Some nd -> lists h !! _branches nd = Some bs ->
  nodes h !! c = Some cd ->
  exists h1,
    connect_to p c h = inr (tt, h1) /\
    connect_to p c h1 = inr (tt, h1) /\
    children h1 p = (if bool_decide (c ∈ bs) then bs else bs ++ [c]) /\
    length (children h1 p) = length (if bool_decide (c ∈ bs) then bs else bs ++ [c]) /\
    (c ∉ bs -> parent_of h1 c = Some p) /\
    (c ∈ bs -> h1 = h).
Proof.
  intros Hp Hl Hc.
  assert (Hplt := lookup_lt_Some _ _ _ Hp).
  assert (Hllt := lookup_lt_Some _ _ _ Hl).
  assert (Hclt := lookup_lt_Some _ _ _ Hc).
  unfold connect_to. munfold. cbn. rewrite Hp. cbn. rewrite Hl. cbn.
  case_bool_decide as Hin; cbn.
  - exists h. rewrite Hp. cbn. rewrite Hl. cbn. rewrite bool_decide_true by done.
    rewrite (children_lookup _ _ _ _ Hp Hl). done.
  - rewrite decide_True by done. cbn. rewrite Hc. cbn.
    rewrite decide_True by done. cbn.
    eexists. split; [reflexivity|].
    set (cd' := {| _game_master := _game_master cd; _branches := _branches cd;
                   _parent := Some p; _tags := _tags cd; _response := _response cd |}).
    assert (Hp' : exists nd', <[c:=cd']> (nodes h) !! p = Some nd' /\ _branches nd' = _branches nd).
    { destruct (decide (c = p)) as [->|Hne].
      - exists cd'. rewrite list_lookup_insert_eq by done. split; [done|].
        simpl. congruence.
      - exists nd. by rewrite list_lookup_insert_ne. }
    destruct Hp' as (nd' & Hp' & Hbr).
    cbn. rewrite Hp'. cbn. rewrite Hbr.
    rewrite list_lookup_insert_eq by done. cbn.
    rewrite bool_decide_true by (apply elem_of_app; right; by apply list_elem_of_singleton).
    split; [done|].
    unfold children, parent_of. cbn. rewrite Hp'. rewrite Hbr.
    rewrite list_lookup_insert_eq by done. cbn.
    rewrite list_lookup_insert_eq by done. cbn. done.
Qed.

(** ** Walking the tree *)

Lemma for_first_spec {St A B} (Q : A -> option B -> Prop)
    (xs : list A) (f : A -> M St (option B)) (s : St) :
  (forall x, x ∈ xs -> exists res, f x s = inr (res, s) /\ Q x res) ->
  exists res, for_first xs f s = inr (res, s) /\
    match res with
    | None => forall x, x ∈ xs -> Q x None
    | Some b => exists x, x ∈ xs /\ Q x (Some b)
    end.
Proof.
  induction xs as [|x xs IH]; intros Hf; simpl.
  - exists None. split; [done|]. intros x Hx. by apply elem_of_nil in Hx.
  - destruct (Hf x) as (res & Hx & HQ); [by left|].
    rewrite (bind_ok _ _ _ _ _ Hx). destruct res as [b|].
    + exists (Some b). split; [done|]. exists x. split; [by left|done].
    + destruct IH as (res & Hres & Hspec).
      { intros y Hy. apply Hf. by right. }
      exists res. split; [done|]. destruct res as [b|].
      * destruct Hspec as (y & Hy & HQy). exists y. split; [by right|done].
      * intros y [->|Hy]%elem_of_cons; [done|by apply Hspec].
Qed.

Lemma reach_trans h r n x : reach h r n -> reach h n x -> reach h r x.
Proof.
  intros Hn Hx. induction Hx as [|p c _ IH Hc]; [done|].
  by eapply reach_child.
Qed.

Lemma reach_inv_head h n x :
  reach h n x -> x = n \/ exists c, c ∈ children h n /\ reach h c x.
Proof.
  induction 1 as [|p c Hp IH Hc]; [by left|]. right.
  destruct IH as [->|(c' & Hc' & Hr)].
  - exists c. split; [done|apply reach_root].
  - exists c'. split; [done|]. by eapply reach_child.
Qed.

Lemma reach_lt h r n : tree_inv h r -> reach h r n -> n < length (nodes h).
Proof.
  intros Hinv Hn. destruct (inv_live _ _ Hinv n Hn) as (nd & _ & _ & Hnd & _).
  by eapply lookup_lt_Some.
Qed.

Lemma reach_children h r n :
  tree_inv h r -> reach h r n ->
  exists nd, nodes h !! n = Some nd /\ lists h !! _branches nd = Some (children h n).
Proof.
  intros Hinv Hn. destruct (inv_live _ _ Hinv n Hn) as (nd & bs & _ & Hnd & Hbs & _).
  exists nd. split; [done|]. by rewrite (children_lookup _ _ _ _ Hnd Hbs).
Qed.

Lemma load_node_ok h n nd : nodes h !! n = Some nd -> load_node n h = inr (nd, h).
Proof. unfold load_node. munfold. by intros ->. Qed.

Lemma iter_ok h r n : tree_inv h r -> reach h r n -> iter n h = inr (children h n, h).
Proof.
  intros Hinv Hn. destruct (reach_children _ _ _ Hinv Hn) as (nd & Hnd & Hbs).
  unfold iter. rewrite (bind_ok _ _ _ _ _ (load_node_ok _ _ _ Hnd)).
  unfold load_list. munfold. by rewrite Hbs.
Qed.

Lemma wraps_ok h r n t :
  tree_inv h r -> reach h r n ->
  wraps n t h = inr (bool_decide (master_of h n = Some t), h).
Proof.
  intros Hinv Hn. destruct (reach_children _ _ _ Hinv Hn) as (nd & Hnd & _).
  unfold wraps. rewrite (bind_ok _ _ _ _ _ (load_node_ok _ _ _ Hnd)).
  unfold ret, master_of. rewrite Hnd. simpl. do 2 f_equal.
  apply bool_decide_ext. split; congruence.
Qed.

Lemma node_bool_ok h r n :
  tree_inv h r -> reach h r n ->
  node_bool n h = inr (match children h n with [] => false | _ => true end, h).
Proof.
  intros Hinv Hn. unfold node_bool.
  by rewrite (bind_ok _ _ _ _ _ (iter_ok _ _ _ Hinv Hn)).
Qed.

(** The search visits the subtree of [node] and needs one unit of fuel
    per level; a child is younger than its parent, so the number of
    nodes bounds the depth. *)
Lemma _find_node_spec h r t fuel : forall n,
  tree_inv h r -> reach h r n -> length (nodes h) <= fuel + n ->
  exists res, _find_node fuel t n h = inr (res, h) /\
    match res with
    | Some x => reach h n x /\ master_of h x = Some t
    | None => forall x, reach h n x -> master_of h x <> Some t
    end.
Proof.
  induction fuel as [|fuel IH]; intros n Hinv Hn Hfuel.
  - pose proof (reach_lt _ _ _ Hinv Hn). lia.
  - simpl. rewrite (bind_ok _ _ _ _ _ (wraps_ok _ _ _ t Hinv Hn)).
    case_bool_decide as Hw.
    + exists (Some n). split; [done|]. split; [apply reach_root|done].
    + rewrite (bind_ok _ _ _ _ _ (iter_ok _ _ _ Hinv Hn)).
      destruct (for_first_spec
        (fun c res => match res with
                      | Some x => reach h c x /\ master_of h x = Some t
                      | None => forall x, reach h c x -> master_of h x <> Some t
                      end)
        (children h n) (_find_node fuel t) h) as (res & Hres & Hspec).
      { intros c Hc. apply IH; [done|by eapply reach_child|].
        destruct (inv_child _ _ Hinv n c Hn Hc). lia. }
      exists res. split; [done|]. destruct res as [x|].
      * destruct Hspec as (c & Hc & Hx & Hm). split; [|done].
        eapply reach_trans; [|done]. eapply reach_child; [apply reach_root|done].
      * intros x [->|(c & Hc & Hx)]%reach_inv_head; [done|]. by eapply Hspec.
Qed.

Lemma find_node_spec h r t :
  tree_inv h r ->
  exists res, find_node {| root := r |} t h = inr (res, h) /\
    match res with
    | Some x => reach h r x /\ master_of h x = Some t
    | None => unwrapped h r t
    end.
Proof.
  intros Hinv.
  change (find_node {| root := r |} t h) with (_find_node (recursion_bound h) t r h).
  apply (_find_node_spec h r); [done|apply reach_root|unfold recursion_bound; lia].
Qed.

Lemma _find_leaves_spec h r fuel : forall n,
  tree_inv h r -> reach h r n -> length (nodes h) <= fuel + n ->
  exists ls, _find_leaves fuel n h = inr (ls, h) /\
    forall x, x ∈ ls <-> reach h n x /\ children h x = [].
Proof.
  induction fuel as [|fuel IH]; intros n Hinv Hn Hfuel.
  - pose proof (reach_lt _ _ _ Hinv Hn). lia.
  - simpl. rewrite (bind_ok _ _ _ _ _ (node_bool_ok _ _ _ Hinv Hn)).
    destruct (children h n) as [|c0 cs] eqn:Hcs; simpl.
    + exists [n]. split; [done|]. intros x. rewrite list_elem_of_singleton. split.
      * intros ->. split; [apply reach_root|done].
      * intros [[->|(c & Hc & _)]%reach_inv_head _]; [done|].
        rewrite Hcs in Hc. by apply elem_of_nil in Hc.
    + rewrite (bind_ok _ _ _ _ _ (iter_ok _ _ _ Hinv Hn)). rewrite Hcs.
      destruct (for_fold_total
        (fun pre (acc : list ref) s => s = h /\
           forall x, x ∈ acc <-> exists c, c ∈ pre /\ reach h c x /\ children h x = [])
        (c0 :: cs)
        (fun leaves branch => bind (_find_leaves fuel branch)
                                (fun ls => ret (leaves ++ ls)))
        [] [] h) as (ls & h' & Hrun & -> & Hls).
      { split; [done|]. intros x. split.
        - by intros ?%elem_of_nil.
        - by intros (c & ?%elem_of_nil & _). }
      { intros pre c acc s [post Hpost] _ [-> Hacc]. simpl in Hpost.
        assert (Hc : c ∈ children h n).
        { rewrite Hcs, Hpost. apply elem_of_app. right. by left. }
        destruct (IH c) as (lc & Hlc & Hlcspec);
          [done|by eapply reach_child|destruct (inv_child _ _ Hinv n c Hn Hc); lia|].
        rewrite (bind_ok _ _ _ _ _ Hlc). eexists _, _. split; [done|].
        split; [done|]. intros x. rewrite elem_of_app, Hacc, Hlcspec. split.
        - intros [(c' & Hc' & Hx)|Hx].
          + exists c'. split; [apply elem_of_app; by left|done].
          + exists c. split; [apply elem_of_app; right; by apply list_elem_of_singleton|done].
        - intros (c' & [Hc'| ->%list_elem_of_singleton]%elem_of_app & Hx); [|by right].
          left. by exists c'. }
      exists ls. split; [done|]. intros x. rewrite Hls. simpl. split.
      * intros (c & Hc & Hx & Hleaf). split; [|done].
        eapply reach_trans; [|done]. eapply reach_child; [apply reach_root|].
        by rewrite Hcs.
      * intros [[->|(c & Hc & Hx)]%reach_inv_head Hleaf]; [congruence|].
        exists c. by rewrite <- Hcs.
Qed.

Lemma find_leaves_spec h r :
  tree_inv h r ->
  exists ls, find_leaves {| root := r |} h = inr (ls, h) /\
    forall x, x ∈ ls <-> reach h r x /\ children h x = [].
Proof.
  intros Hinv.
  change (find_leaves {| root := r |} h) with (_find_leaves (recursion_bound h) r h).
  apply (_find_leaves_spec h r); [done|apply reach_root|unfold recursion_bound; lia].
Qed.

(** ** Attaching a branch keeps the tree a tree *)

Section Attached.
Variables (h : heap) (r p bm : ref) (attrs : option ResponseAttrs).
Hypothesis Hinv : tree_inv h r.
Hypothesis Hp : reach h r p.

Let b := length (nodes h).
Let h' := attached h p bm attrs.

Lemma attached_old_node n nd : nodes h !! n = Some nd -> nodes h' !! n = Some nd.
Proof. intros Hn. unfold h', attached. simpl. by apply lookup_app_l_Some. Qed.

Lemma attached_new_node :
  nodes h' !! b = Some {| _game_master := bm; _branches := length (lists h);
                          _parent := Some p; _tags := length (sets h);
                          _response := attrs |}.
Proof. unfold h', attached. simpl. by apply list_lookup_middle. Qed.

Lemma attached_nodes_inv n nd :
  nodes h' !! n = Some nd -> nodes h !! n = Some nd \/ n = b.
Proof.
  unfold h', attached. simpl. intros Hn.
  destruct (decide (n < length (nodes h))) as [Hlt|Hge].
  - left. by rewrite lookup_app_l in Hn.
  - right. apply lookup_lt_Some in Hn. rewrite length_app in Hn. simpl in Hn.
    unfold b. lia.
Qed.

Lemma attached_children_old n :
  reach h r n -> children h' n = if decide (n = p) then children h p ++ [b] else children h n.
Proof.
  intros Hn.
  destruct (reach_children _ _ _ Hinv Hn) as (nd & Hnd & Hbs).
  destruct (reach_children _ _ _ Hinv Hp) as (pd & Hpd & Hpbs).
  assert (Hl := lookup_lt_Some _ _ _ Hbs). assert (Hpl := lookup_lt_Some _ _ _ Hpbs).
  unfold children at 1. rewrite (attached_old_node _ _ Hnd).
  unfold h', attached. cbn. rewrite Hpd.
  destruct (decide (n = p)) as [->|Hne].
  - assert (nd = pd) as -> by congruence.
    rewrite list_lookup_insert_eq by (rewrite length_app; lia). done.
  - rewrite list_lookup_insert_ne.
    + rewrite lookup_app_l by done. by rewrite Hbs.
    + intros Heq. apply Hne. symmetry. eapply (inv_own _ _ Hinv); eauto.
Qed.

Lemma attached_children_new : children h' b = [].
Proof.
  destruct (reach_children _ _ _ Hinv Hp) as (pd & Hpd & Hpbs).
  assert (Hpl := lookup_lt_Some _ _ _ Hpbs).
  unfold children. rewrite attached_new_node. simpl.
  unfold h', attached. simpl. rewrite Hpd.
  rewrite list_lookup_insert_ne by lia.
  by rewrite list_lookup_middle.
Qed.

Lemma attached_reach_old n : reach h r n -> reach h' r n.
Proof.
  induction 1 as [|q c Hq IH Hc]; [apply reach_root|].
  eapply reach_child; [done|]. rewrite (attached_children_old _ Hq).
  case_decide; [subst; apply elem_of_app; by left|done].
Qed.

Lemma attached_reach_new : reach h' r b.
Proof.
  eapply reach_child; [by apply attached_reach_old|].
  rewrite (attached_children_old _ Hp). rewrite decide_True by done.
  apply elem_of_app. right. by apply list_elem_of_singleton.
Qed.

Lemma attached_reach_inv n : reach h' r n -> reach h r n \/ n = b.
Proof.
  induction 1 as [|q c Hq IH Hc]; [left; apply reach_root|].
  destruct IH as [Hq'| ->].
  - rewrite (attached_children_old _ Hq') in Hc. case_decide.
    + subst q. apply elem_of_app in Hc as [Hc| ->%list_elem_of_singleton]; [|by right].
      left. by eapply reach_child.
    + left. by eapply reach_child.
  - rewrite attached_children_new in Hc. by apply elem_of_nil in Hc.
Qed.

Lemma attached_reach n : reach h' r n <-> reach h r n \/ n = b.
Proof.
  split; [apply attached_reach_inv|].
  intros [Hn| ->]; [by apply attached_reach_old|apply attached_reach_new].
Qed.

Lemma attached_parent_old n : n < b -> parent_of h' n = parent_of h n.
Proof.
  intros Hn. unfold parent_of, h', attached. simpl. by rewrite lookup_app_l.
Qed.

Lemma attached_parent_new : parent_of h' b = Some p.
Proof. unfold parent_of. by rewrite attached_new_node. Qed.

Lemma attached_master_old n : n < b -> master_of h' n = master_of h n.
Proof.
  intros Hn. unfold master_of, h', attached. simpl. by rewrite lookup_app_l.
Qed.

Lemma attached_master_new : master_of h' b = Some bm.
Proof. unfold master_of. by rewrite attached_new_node. Qed.

Lemma attached_tags_old n : reach h r n -> tags_of h' n = tags_of h n.
Proof.
  intros Hn. destruct (inv_live _ _ Hinv n Hn) as (nd & bs & s & Hnd & _ & Hs).
  unfold tags_of. rewrite (attached_old_node _ _ Hnd), Hnd.
  unfold h', attached. simpl. by rewrite (lookup_app_l_Some _ _ _ _ Hs), Hs.
Qed.

Lemma attached_tags_new : tags_of h' b = ∅.
Proof.
  unfold tags_of. rewrite attached_new_node. simpl.
  unfold h', attached. simpl. by rewrite list_lookup_middle.
Qed.

Lemma attached_inv : tree_inv h' r.
Proof.
  destruct (reach_children _ _ _ Hinv Hp) as (pd & Hpd & Hpbs).
  assert (Hpl := lookup_lt_Some _ _ _ Hpbs).
  assert (Hplt := reach_lt _ _ _ Hinv Hp).
  split.
  - intros n [Hn| ->]%attached_reach.
    + destruct (inv_live _ _ Hinv n Hn) as (nd & bs & s & Hnd & Hbs & Hs).
      exists nd. pose proof (attached_children_old _ Hn) as Hch.
      unfold children in Hch. rewrite (attached_old_node _ _ Hnd) in Hch.
      assert (Hl : is_Some (lists h' !! _branches nd)).
      { apply lookup_lt_is_Some. unfold h', attached. simpl. rewrite Hpd.
        rewrite length_insert, length_app. apply lookup_lt_Some in Hbs. lia. }
      destruct Hl as [bs' Hbs']. exists bs', s.
      split; [by apply attached_old_node|]. split; [done|].
      unfold h', attached. simpl. by apply lookup_app_l_Some.
    + eexists _, [], ∅. split; [apply attached_new_node|]. simpl. split.
      * unfold h', attached. simpl. rewrite Hpd.
        rewrite list_lookup_insert_ne by lia. by apply list_lookup_middle.
      * unfold h', attached. simpl. by apply list_lookup_middle.
  - intros q c [Hq| ->]%attached_reach Hc.
    + rewrite (attached_children_old _ Hq) in Hc. case_decide.
      * subst q. apply elem_of_app in Hc as [Hc| ->%list_elem_of_singleton].
        -- destruct (inv_child _ _ Hinv p c Hp Hc) as [Hlt Hpar]. split; [done|].
           rewrite attached_parent_old; [done|].
           eapply reach_lt; [done|]. by eapply reach_child.
        -- split; [done|apply attached_parent_new].
      * destruct (inv_child _ _ Hinv q c Hq Hc) as [Hlt Hpar]. split; [done|].
        rewrite attached_parent_old; [done|].
        eapply reach_lt; [done|]. by eapply reach_child.
    + rewrite attached_children_new in Hc. by apply elem_of_nil in Hc.
  - intros n m nd md Hn Hm Hnd Hmd Heq.
    apply attached_reach in Hn, Hm.
    assert (Hfresh : forall x xd, reach h r x -> nodes h' !! x = Some xd ->
              _branches xd < length (lists h) /\ _tags xd < length (sets h) /\
              nodes h !! x = Some xd).
    { intros x xd Hx Hxd.
      destruct (inv_live _ _ Hinv x Hx) as (xd' & bs & s & Hxd' & Hbs & Hs).
      rewrite (attached_old_node _ _ Hxd') in Hxd. simplify_eq.
      split; [by eapply lookup_lt_Some|]. split; [by eapply lookup_lt_Some|done]. }
    destruct Hn as [Hn| ->], Hm as [Hm| ->]; [| | |done].
    + destruct (Hfresh _ _ Hn Hnd) as (_ & _ & Hnd').
      destruct (Hfresh _ _ Hm Hmd) as (_ & _ & Hmd').
      eapply (inv_own _ _ Hinv); eauto.
    + destruct (Hfresh _ _ Hn Hnd) as (? & ? & _).
      rewrite attached_new_node in Hmd. simplify_eq. simpl in Heq. lia.
    + destruct (Hfresh _ _ Hm Hmd) as (? & ? & _).
      rewrite attached_new_node in Hnd. simplify_eq. simpl in Heq. lia.
  - rewrite attached_parent_old; [apply (inv_root _ _ Hinv)|].
    eapply reach_lt; [done|apply reach_root].
Qed.

End Attached.

Lemma add_branch_to_ok h r cand p :
  tree_inv h r -> reach h r p ->
  master_of h p = Some (parent_master (cand_response cand)) ->
  find_node {| root := r |} (parent_master (cand_response cand)) h = inr (Some p, h) ->
  add_branch_to cand {| root := r |} h =
    inr (tt, attached h p (branch_master (cand_response cand))
               (Some {| player := parent_player (cand_response cand);
                        context := parent_context (cand_response cand);
                        response := branch_response (cand_response cand);
                        done := cand_done cand;
                        info := cand_info cand |})).
Proof.
  intros Hinv Hp Hm Hfind. unfold add_branch_to.
  rewrite (bind_ok _ _ _ _ _ Hfind).
  destruct (reach_children _ _ _ Hinv Hp) as (pd & Hpd & Hpbs).
  assert (Hpl := lookup_lt_Some _ _ _ Hpbs).
  assert (Hplt := reach_lt _ _ _ Hinv Hp).
  assert (Hfresh : length (nodes h) ∉ children h p).
  { intros Hin. destruct (inv_child _ _ Hinv p _ Hp Hin) as [_ Hpar].
    assert (Hr : reach h r (length (nodes h))) by by eapply reach_child.
    apply (reach_lt _ _ _ Hinv) in Hr. lia. }
  unfold connect_to. munfold. cbn.
  rewrite lookup_app_l by done. rewrite Hpd. cbn.
  rewrite lookup_app_l by done. rewrite Hpbs. cbn.
  rewrite bool_decide_false by done. cbn.
  rewrite decide_True by (rewrite length_app; lia). cbn.
  rewrite list_lookup_middle by done. cbn.
  rewrite decide_True by (rewrite length_app; simpl; lia). cbn.
  unfold attached. rewrite Hpd. do 2 f_equal. unfold with_nodes, with_lists. cbn.
  f_equal. rewrite insert_app_r_alt by done. by rewrite Nat.sub_diag.
Qed.

(** ** Stores that hold the same tree *)

Lemma same_tree_refl h : same_tree h h.
Proof. by repeat split. Qed.

Lemma same_tree_trans h1 h2 h3 : same_tree h1 h2 -> same_tree h2 h3 -> same_tree h1 h3.
Proof. intros (?&?&?) (?&?&?). repeat split; congruence. Qed.

Lemma same_tree_shape h h' : same_tree h h' -> same_shape h h'.
Proof. intros (Hn & Hl & Hs). repeat split; congruence. Qed.

Lemma shape_children h h' n : same_shape h h' -> children h' n = children h n.
Proof. intros (Hn & Hl & _). unfold children. by rewrite Hn, Hl. Qed.

Lemma shape_parent h h' n : same_shape h h' -> parent_of h' n = parent_of h n.
Proof. intros (Hn & _). unfold parent_of. by rewrite Hn. Qed.

Lemma shape_master h h' n : same_shape h h' -> master_of h' n = master_of h n.
Proof. intros (Hn & _). unfold master_of. by rewrite Hn. Qed.

Lemma shape_reach h h' r n : same_shape h h' -> reach h' r n <-> reach h r n.
Proof.
  intros Hsame. split; induction 1 as [|p c Hp IH Hc]; try apply reach_root.
  - eapply reach_child; [done|]. by rewrite <- (shape_children _ _ _ Hsame).
  - eapply reach_child; [done|]. by rewrite (shape_children _ _ _ Hsame).
Qed.

Lemma shape_inv h h' r : same_shape h h' -> tree_inv h r -> tree_inv h' r.
Proof.
  intros Hsame Hinv. pose proof Hsame as (Hn & Hl & Hs). split.
  - intros n Hn'%(shape_reach _ _ _ _ Hsame). rewrite Hn, Hl.
    destruct (inv_live _ _ Hinv n Hn') as (nd & bs & s & Hnd & Hbs & Hse).
    apply lookup_lt_Some in Hse. rewrite <- Hs in Hse.
    apply lookup_lt_is_Some in Hse as [s' Hs']. by exists nd, bs, s'.
  - intros p c Hp%(shape_reach _ _ _ _ Hsame) Hc.
    rewrite (shape_children _ _ _ Hsame) in Hc.
    rewrite (shape_parent _ _ _ Hsame). by apply (inv_child _ _ Hinv).
  - intros n m nd md Hn'%(shape_reach _ _ _ _ Hsame)
      Hm%(shape_reach _ _ _ _ Hsame). rewrite Hn.
    by apply (inv_own _ _ Hinv).
  - rewrite (shape_parent _ _ _ Hsame). apply (inv_root _ _ Hinv).
Qed.

Lemma same_tree_master h h' n : same_tree h h' -> master_of h' n = master_of h n.
Proof. intros ?%same_tree_shape. by apply shape_master. Qed.

Lemma same_tree_tags h h' n : same_tree h h' -> tags_of h' n = tags_of h n.
Proof. intros (Hn & _ & Hs). unfold tags_of. by rewrite Hn, Hs. Qed.

Lemma same_tree_reach h h' r n : same_tree h h' -> reach h' r n <-> reach h r n.
Proof. intros ?%same_tree_shape. by apply shape_reach. Qed.

Lemma same_tree_inv h h' r : same_tree h h' -> tree_inv h r -> tree_inv h' r.
Proof. intros ?%same_tree_shape. by apply shape_inv. Qed.

Lemma grown_same h h' r : same_tree h h' -> tree_inv h r -> grown h h' r [].
Proof.
  intros Hsame Hinv. split.
  - by eapply same_tree_inv.
  - intros n Hn. split; [by apply (same_tree_reach _ _ _ _ Hsame)|].
    split; [by apply same_tree_tags|by apply same_tree_master].
  - intros n Hn. left. by apply (same_tree_reach _ _ _ _ Hsame).
Qed.

Lemma grown_attached h0 h r ms p bm attrs :
  grown h0 h r ms -> reach h r p -> grown h0 (attached h p bm attrs) r (ms ++ [bm]).
Proof.
  intros Hg Hp. pose proof (grown_inv _ _ _ _ Hg) as Hinv. split.
  - by apply attached_inv.
  - intros n Hn. destruct (grown_old _ _ _ _ Hg n Hn) as (Hn' & Ht & Hm).
    split; [by apply attached_reach_old|].
    rewrite (attached_tags_old _ _ _ _ _ Hinv n Hn').
    rewrite attached_master_old by by eapply reach_lt.
    done.
  - intros n [Hn| ->]%(attached_reach _ _ _ _ _ Hinv Hp).
    + destruct (grown_new _ _ _ _ Hg n Hn) as [Hold|(Ht & m & Hm & Hw)]; [by left|].
      right. rewrite (attached_tags_old _ _ _ _ _ Hinv n Hn).
      rewrite attached_master_old by by eapply reach_lt.
      split; [done|]. exists m. split; [apply elem_of_app; by left|done].
    + right. split; [by apply attached_tags_new|]. exists bm.
      split; [apply elem_of_app; right; by apply list_elem_of_singleton|].
      apply attached_master_new.
Qed.

(** ** [step]: the loop that applies the candidates *)

Lemma apply_cases st h :
  match apply st h with
  | inr (_, h') => same_tree h h' /\ length (masters h') = length (masters h) /\
                   live_master h st
  | inl e => e = DanglingRef /\ ~ live_master h st
  end.
Proof.
  unfold apply, live_master. munfold.
  destruct (masters h !! branch_master st) as [g|] eqn:Hg; cbn.
  - apply lookup_lt_Some in Hg. destruct (gm_step g (branch_response st)) as [g' res].
    cbn. rewrite decide_True by done. cbn.
    split; [by repeat split|]. split; [apply length_insert|done].
  - apply lookup_ge_None in Hg. split; [done|lia].
Qed.

(** [apply] steps the branch handle and no other game master. *)
Lemma apply_other_masters st h res h' m :
  apply st h = inr (res, h') -> m <> branch_master st ->
  masters h' !! m = masters h !! m.
Proof.
  unfold apply. munfold.
  destruct (masters h !! branch_master st) as [g|]; cbn; [|done].
  destruct (gm_step g (branch_response st)) as [g' res']. cbn.
  case_decide; cbn; [|done]. intros [= <- <-] Hne. cbn.
  by apply list_lookup_insert_ne.
Qed.

Lemma applied_length sts h rs h' : applied sts h rs h' -> length rs = length sts.
Proof. induction 1; simpl; congruence. Qed.

Lemma applied_app sts1 sts2 h rs1 h1 rs2 h2 :
  applied sts1 h rs1 h1 -> applied sts2 h1 rs2 h2 ->
  applied (sts1 ++ sts2) h (rs1 ++ rs2) h2.
Proof. induction 1; simpl; [done|]. intros. econstructor; eauto. Qed.

Lemma live_master_length h h' st :
  length (masters h') = length (masters h) -> live_master h' st <-> live_master h st.
Proof. unfold live_master. by intros ->. Qed.

Lemma apply_group_cases sts : forall infos cands h,
  match for_fold sts (infos, cands) (fun '(infos, candidates) branching_step =>
          bind (apply branching_step) (fun '(done, info) =>
            let info := <["done" := VBool done]> info in
            ret (infos ++ [info],
                 candidates ++ [{| cand_response := branching_step;
                                   cand_done := done; cand_info := info |}]))) h with
  | inr ((infos', cands'), h') =>
      exists rs, applied sts h rs h' /\
        infos' = infos ++ map info_of rs /\
        cands' = cands ++ zip_with candidate_of sts rs /\
        same_tree h h' /\ length (masters h') = length (masters h) /\
        Forall (live_master h) sts
  | inl e => e = DanglingRef /\ ~ Forall (live_master h) sts
  end.
Proof.
  induction sts as [|st sts IH]; intros infos cands h; simpl.
  - exists []. rewrite !app_nil_r. split; [constructor|].
    split; [done|]. split; [done|]. split; [apply same_tree_refl|]. by split.
  - pose proof (apply_cases st h) as Hst.
    destruct (apply st h) as [e|[[d i] h1]] eqn:Hap.
    + rewrite (bind_inl _ _ _ e) by by rewrite (bind_inl _ _ _ _ Hap).
      destruct Hst as [-> Hnl]. split; [done|]. by intros [? _]%Forall_cons.
    + destruct Hst as (Hsame & Hlen & Hlive).
      erewrite bind_ok by (by rewrite (bind_ok _ _ _ _ _ Hap)).
      specialize (IH (infos ++ [<["done":=VBool d]> i])
        (cands ++ [{| cand_response := st; cand_done := d;
                      cand_info := <["done":=VBool d]> i |}]) h1).
      destruct (for_fold sts _ _ h1) as [e|[[infos' cands'] h']].
      * destruct IH as [-> Hnl]. split; [done|]. intros [_ Hall]%Forall_cons.
        apply Hnl. eapply Forall_impl; [done|]. intros x. by apply live_master_length.
      * destruct IH as (rs & Hrs & -> & -> & Hsame' & Hlen' & Hall).
        exists ((d, i) :: rs). split; [by econstructor|]. simpl.
        rewrite <- !app_assoc. split; [done|]. split; [done|].
        split; [by eapply same_tree_trans|]. split; [congruence|].
        constructor; [done|]. eapply Forall_impl; [done|].
        intros x. by apply live_master_length.
Qed.

Lemma apply_all_cases groups : forall all_infos cands h,
  match for_fold groups (all_infos, cands) (fun '(all_infos, candidates) branching_steps =>
          bind (apply_group candidates branching_steps) (fun '(infos, candidates) =>
            ret (all_infos ++ [infos], candidates))) h with
  | inr ((all_infos', cands'), h') =>
      exists rs, applied (concat groups) h rs h' /\
        concat all_infos' = concat all_infos ++ map info_of rs /\
        map length all_infos' = map length all_infos ++ map length groups /\
        cands' = cands ++ zip_with candidate_of (concat groups) rs /\
        same_tree h h' /\ length (masters h') = length (masters h) /\
        Forall (live_master h) (concat groups)
  | inl e => e = DanglingRef /\ ~ Forall (live_master h) (concat groups)
  end.
Proof.
  induction groups as [|sts groups IH]; intros all_infos cands h; simpl.
  - exists []. rewrite !app_nil_r. split; [constructor|].
    split; [done|]. split; [done|]. split; [done|].
    split; [apply same_tree_refl|]. by split.
  - pose proof (apply_group_cases sts [] cands h) as Hg.
    change (for_fold sts ([], cands) _ h) with (apply_group cands sts h) in Hg.
    destruct (apply_group cands sts h) as [e|[[infos cands1] h1]] eqn:Hap.
    + rewrite (bind_inl _ _ _ e) by by rewrite (bind_inl _ _ _ _ Hap).
      destruct Hg as [-> Hnl]. split; [done|]. by intros [? _]%Forall_app.
    + destruct Hg as (rs1 & Hrs1 & -> & -> & Hsame & Hlen & Hall1).
      erewrite bind_ok by (by rewrite (bind_ok _ _ _ _ _ Hap)).
      specialize (IH (all_infos ++ [map info_of rs1])
                     (cands ++ zip_with candidate_of sts rs1) h1).
      destruct (for_fold groups _ _ h1) as [e|[[all_infos' cands'] h']].
      * destruct IH as [-> Hnl]. split; [done|]. intros [_ Hall]%Forall_app.
        apply Hnl. eapply Forall_impl; [done|]. intros x. by apply live_master_length.
      * destruct IH as (rs & Hrs & Hcat & Hlens & -> & Hsame' & Hlen' & Hall).
        exists (rs1 ++ rs). split; [by eapply applied_app|].
        rewrite Hcat, Hlens, concat_app, !map_app. simpl. rewrite app_nil_r.
        rewrite <- !app_assoc. simpl. rewrite length_map.
        rewrite (applied_length _ _ _ _ Hrs1).
        rewrite zip_with_app by by rewrite (applied_length _ _ _ _ Hrs1).
        split; [done|]. split; [done|]. split; [done|].
        split; [by eapply same_tree_trans|]. split; [congruence|].
        apply Forall_app. split; [done|]. eapply Forall_impl; [done|].
        intros x. by apply live_master_length.
Qed.

(** ** [step]: the loop that attaches the candidates *)

Lemma grown_trans h1 h2 h3 r ms1 ms2 :
  grown h1 h2 r ms1 -> grown h2 h3 r ms2 -> grown h1 h3 r (ms1 ++ ms2).
Proof.
  intros H12 H23. split.
  - apply (grown_inv _ _ _ _ H23).
  - intros n Hn. destruct (grown_old _ _ _ _ H12 n Hn) as (Hn2 & Ht2 & Hm2).
    destruct (grown_old _ _ _ _ H23 n Hn2) as (Hn3 & Ht3 & Hm3).
    split; [done|]. split; congruence.
  - intros n Hn. destruct (grown_new _ _ _ _ H23 n Hn) as [Hn2|(Ht & m & Hm & Hw)].
    + destruct (grown_old _ _ _ _ H23 n Hn2) as (_ & Ht3 & Hm3).
      destruct (grown_new _ _ _ _ H12 n Hn2) as [Hn1|(Ht & m & Hm & Hw)]; [by left|].
      right. split; [congruence|]. exists m.
      split; [apply elem_of_app; by left|congruence].
    + right. split; [done|]. exists m. split; [apply elem_of_app; by right|done].
Qed.

Lemma grown_unwrapped h h' r ms m :
  grown h h' r ms -> unwrapped h' r m -> unwrapped h r m.
Proof.
  intros Hg Hun n Hn. destruct (grown_old _ _ _ _ Hg n Hn) as (Hn' & _ & Hm).
  rewrite <- Hm. by apply Hun.
Qed.

Lemma add_branch_to_cases h r cand :
  tree_inv h r ->
  match add_branch_to cand {| root := r |} h with
  | inl e => e = missing_parent /\ unwrapped h r (parent_master (cand_response cand))
  | inr (_, h') =>
      grown h h' r [branch_master (cand_response cand)] /\
      exists n, reach h' r n /\ master_of h' n = Some (parent_master (cand_response cand))
  end.
Proof.
  intros Hinv.
  destruct (find_node_spec h r (parent_master (cand_response cand)) Hinv)
    as ([p|] & Hfind & Hspec).
  - destruct Hspec as [Hp Hm].
    rewrite (add_branch_to_ok _ _ _ _ Hinv Hp Hm Hfind). split.
    + apply (grown_attached h h r [] p); [|done].
      apply grown_same; [apply same_tree_refl|done].
    + exists p. split; [by apply attached_reach_old|].
      rewrite attached_master_old; [done|by eapply reach_lt].
  - unfold add_branch_to. by rewrite (bind_ok _ _ _ _ _ Hfind).
Qed.

Lemma attach_all_cases r cands : forall acc h,
  tree_inv h r ->
  match for_fold cands acc (fun active candidate =>
          bind (add_branch_to candidate {| root := r |}) (fun _ =>
            ret (active ++ [branch_master (cand_response candidate)]))) h with
  | inr (active, h') =>
      active = acc ++ map (fun c => branch_master (cand_response c)) cands /\
      grown h h' r (map (fun c => branch_master (cand_response c)) cands) /\
      forall c, c ∈ cands ->
        exists n, reach h' r n /\ master_of h' n = Some (parent_master (cand_response c))
  | inl e => e = missing_parent /\
      exists c, c ∈ cands /\ unwrapped h r (parent_master (cand_response c))
  end.
Proof.
  induction cands as [|c cands IH]; intros acc h Hinv; simpl.
  - rewrite app_nil_r. split; [done|].
    split; [apply grown_same; [apply same_tree_refl|done]|].
    by intros c ?%elem_of_nil.
  - pose proof (add_branch_to_cases h r c Hinv) as Hc.
    destruct (add_branch_to c {| root := r |} h) as [e|[[] h1]] eqn:Hadd.
    + rewrite (bind_inl _ _ _ e) by by rewrite (bind_inl _ _ _ _ Hadd).
      destruct Hc as [-> Hun]. split; [done|]. exists c. split; [by left|done].
    + destruct Hc as (Hg1 & n & Hn & Hm).
      erewrite bind_ok by (by rewrite (bind_ok _ _ _ _ _ Hadd)).
      specialize (IH (acc ++ [branch_master (cand_response c)]) h1 (grown_inv _ _ _ _ Hg1)).
      destruct (for_fold cands _ _ h1) as [e|[active h']].
      * destruct IH as (-> & c' & Hc' & Hun). split; [done|].
        exists c'. split; [by right|]. by eapply grown_unwrapped.
      * destruct IH as (-> & Hg & Hwrapped). rewrite <- app_assoc. split; [done|].
        split; [apply (grown_trans _ _ _ _ _ _ Hg1 Hg)|].
        intros c' [->|Hc']%elem_of_cons; [|by apply Hwrapped].
        destruct (grown_old _ _ _ _ Hg n Hn) as (Hn' & _ & Hm').
        exists n. split; [done|congruence].
Qed.

Lemma candidates_masters sts h rs h' :
  applied sts h rs h' ->
  map (fun c => branch_master (cand_response c)) (zip_with candidate_of sts rs)
  = map branch_master sts.
Proof. induction 1; simpl; congruence. Qed.

Lemma candidates_done sts h rs h' :
  applied sts h rs h' -> map cand_done (zip_with candidate_of sts rs) = map fst rs.
Proof. induction 1; simpl; congruence. Qed.

Lemma candidates_elem sts rs c :
  c ∈ zip_with candidate_of sts rs -> cand_response c ∈ sts.
Proof.
  revert rs. induction sts as [|st sts IH]; intros [|r rs]; simpl;
    try by intros ?%elem_of_nil.
  intros [->|Hc]%elem_of_cons; [by left|]. right. by eapply IH.
Qed.

Lemma candidates_elem_of sts h rs h' st :
  applied sts h rs h' -> st ∈ sts ->
  exists c, c ∈ zip_with candidate_of sts rs /\ cand_response c = st.
Proof.
  induction 1 as [|st' sts h r h1 rs h2 Hap Hrest IH]; [by intros ?%elem_of_nil|].
  simpl. intros [->|Hst]%elem_of_cons.
  - eexists. split; [by left|done].
  - destruct (IH Hst) as (c & Hc & <-). exists c. split; [by right|done].
Qed.

(** Everything [step] does, on a store whose tree is well formed. *)
Lemma step_cases h self groups :
  tree_inv h (root (_game_tree self)) ->
  match step self groups h with
  | inr ((self', (d, all_infos)), h') =>
      exists rs h1,
        applied (concat groups) h rs h1 /\
        d = all (map fst rs) /\
        _done self' = d /\
        _active_parent_masters self' = map branch_master (concat groups) /\
        _game_tree self' = _game_tree self /\
        concat all_infos = map info_of rs /\
        map length all_infos = map length groups /\
        grown h h' (root (_game_tree self)) (map branch_master (concat groups)) /\
        Forall (live_master h) (concat groups) /\
        forall st, st ∈ concat groups ->
          exists n, reach h' (root (_game_tree self)) n /\
                    master_of h' n = Some (parent_master st)
  | inl e =>
      (e = DanglingRef /\ ~ Forall (live_master h) (concat groups)) \/
      (e = missing_parent /\ Forall (live_master h) (concat groups) /\
       exists st, st ∈ concat groups /\
                  unwrapped h (root (_game_tree self)) (parent_master st))
  end.
Proof.
  intros Hinv. destruct self as [rt dn [r] act fac crit]. simpl in *.
  unfold step. simpl.
  pose proof (apply_all_cases groups [] [] h) as Hap.
  change (for_fold groups ([], []) _ h) with (apply_all groups h) in Hap.
  destruct (apply_all groups h) as [e|[[all_infos cands] h1]] eqn:Hall.
  - rewrite (bind_inl _ _ _ _ Hall). by left.
  - rewrite (bind_ok _ _ _ _ _ Hall).
    destruct Hap as (rs & Hrs & Hcat & Hlens & -> & Hsame & Hlen & Hlive).
    simpl in Hcat, Hlens.
    pose proof (attach_all_cases r (zip_with candidate_of (concat groups) rs) [] h1
                  (same_tree_inv _ _ _ Hsame Hinv)) as Hat.
    change (for_fold (zip_with candidate_of (concat groups) rs) [] _ h1)
      with (attach_all {| root := r |} (zip_with candidate_of (concat groups) rs) h1)
      in Hat.
    destruct (attach_all _ _ h1) as [e|[active h']] eqn:Hattach.
    + rewrite (bind_inl _ _ _ _ Hattach). right.
      destruct Hat as (-> & c & Hc & Hun). split; [done|]. split; [done|].
      exists (cand_response c). split; [by eapply candidates_elem|].
      intros n Hn. rewrite <- (same_tree_master _ _ _ Hsame).
      apply Hun. by apply (same_tree_reach _ _ _ _ Hsame).
    + rewrite (bind_ok _ _ _ _ _ Hattach). unfold ret.
      destruct Hat as (-> & Hg & Hwrapped). simpl.
      rewrite (candidates_masters _ _ _ _ Hrs) in *.
      rewrite (candidates_done _ _ _ _ Hrs).
      exists rs, h1. split; [done|]. split; [done|]. split; [done|].
      split; [done|]. split; [done|]. split; [done|]. split; [done|].
      split; [|split; [done|]].
      * replace (map branch_master (concat groups))
          with ([] ++ map branch_master (concat groups)) by done.
        eapply grown_trans; [|done]. by apply grown_same.
      * intros st Hst.
        destruct (candidates_elem_of _ _ _ _ _ Hrs Hst) as (c & Hc & <-).
        by apply Hwrapped.
Qed.

(** ** [get_active_tree]: labelling *)

Lemma parent_ok h r n :
  tree_inv h r -> reach h r n -> parent n h = inr (parent_of h n, h).
Proof.
  intros Hinv Hn. destruct (reach_children _ _ _ Hinv Hn) as (nd & Hnd & _).
  unfold parent. rewrite (bind_ok _ _ _ _ _ (load_node_ok _ _ _ Hnd)).
  unfold parent_of. by rewrite Hnd.
Qed.

Lemma unwrap_ok h r n :
  tree_inv h r -> reach h r n ->
  exists m, unwrap n h = inr (m, h) /\ master_of h n = Some m.
Proof.
  intros Hinv Hn. destruct (reach_children _ _ _ Hinv Hn) as (nd & Hnd & _).
  exists (_game_master nd). unfold unwrap.
  rewrite (bind_ok _ _ _ _ _ (load_node_ok _ _ _ Hnd)).
  unfold master_of. by rewrite Hnd.
Qed.

Lemma has_tag_ok h n nd s t :
  nodes h !! n = Some nd -> sets h !! _tags nd = Some s ->
  has_tag n t h = inr (bool_decide (t ∈ s), h).
Proof.
  intros Hnd Hs. unfold has_tag.
  rewrite (bind_ok _ _ _ _ _ (load_node_ok _ _ _ Hnd)).
  unfold load_set. munfold. by rewrite Hs.
Qed.

(** A child's [_parent] is a node of the tree that lists the child. *)
Lemma parent_reach h r n p :
  tree_inv h r -> reach h r n -> parent_of h n = Some p ->
  reach h r p /\ n ∈ children h p /\ p < n.
Proof.
  intros Hinv Hn Hpar. destruct Hn as [|q c Hq Hc].
  - rewrite (inv_root _ _ Hinv) in Hpar. discriminate.
  - destruct (inv_child _ _ Hinv q c Hq Hc) as [Hlt Hpar'].
    assert (p = q) as -> by congruence. done.
Qed.

Lemma anc_step h l p m : parent_of h l = Some p -> anc h l m <-> m = l \/ anc h p m.
Proof.
  intros Hpar. split.
  - intros [->|(q & Hq & Hrest)]%rtc_inv; [by left|]. right.
    assert (q = p) as -> by congruence. done.
  - intros [->|Hp]; [apply rtc_refl|]. by eapply rtc_l.
Qed.

Lemma anc_none h l m : parent_of h l = None -> anc h l m <-> m = l.
Proof.
  intros Hpar. split.
  - intros [->|(q & Hq & _)]%rtc_inv; [done|congruence].
  - intros ->. apply rtc_refl.
Qed.

Lemma shape_anc h h' l m : same_shape h h' -> anc h' l m <-> anc h l m.
Proof.
  intros Hsame. unfold anc. split; induction 1 as [|x y z Hxy _ IH];
    try apply rtc_refl; eapply rtc_l; try done.
  - by rewrite <- (shape_parent _ _ _ Hsame).
  - by rewrite (shape_parent _ _ _ Hsame).
Qed.

Lemma same_shape_refl h : same_shape h h.
Proof. by repeat split. Qed.

Lemma same_shape_trans h1 h2 h3 : same_shape h1 h2 -> same_shape h2 h3 -> same_shape h1 h3.
Proof. intros (?&?&?) (?&?&?). repeat split; congruence. Qed.

Lemma tag_spec h r n t :
  tree_inv h r -> reach h r n ->
  exists h', tag n t h = inr (tt, h') /\ same_shape h h' /\ masters h' = masters h /\
    forall m, reach h r m ->
      tags_of h' m = if decide (m = n) then {[ t ]} ∪ tags_of h n else tags_of h m.
Proof.
  intros Hinv Hn. destruct (inv_live _ _ Hinv n Hn) as (nd & bs & s & Hnd & Hbs & Hs).
  assert (Hlt := lookup_lt_Some _ _ _ Hs).
  unfold tag. rewrite (bind_ok _ _ _ _ _ (load_node_ok _ _ _ Hnd)).
  unfold load_set, store_set. munfold. rewrite Hs. cbn.
  rewrite decide_True by done. eexists. split; [done|].
  split; [repeat split; cbn; by rewrite ?length_insert|]. split; [done|].
  intros m Hm. destruct (inv_live _ _ Hinv m Hm) as (md & _ & sm & Hmd & _ & Hsm).
  unfold tags_of. cbn. rewrite Hmd, Hnd, Hs. case_decide as Heq.
  - subst m. assert (md = nd) as -> by congruence.
    by rewrite list_lookup_insert_eq.
  - rewrite list_lookup_insert_ne; [done|].
    intros Ht. apply Heq. eapply (inv_own _ _ Hinv); eauto.
Qed.

(** The walk from a node of the tree up to the root tags the node and
    its ancestors, and nothing else; a parent is older than its child,
    so a node's own index bounds the length of the walk. *)
Lemma label_spec r fuel : forall h l,
  tree_inv h r -> reach h r l -> l < fuel ->
  exists h', label_active_recursive fuel l h = inr (tt, h') /\
    same_shape h h' /\ masters h' = masters h /\
    forall m t, reach h r m ->
      (t ∈ tags_of h' m <-> t ∈ tags_of h m \/ (t = "active" /\ anc h l m)).
Proof.
  induction fuel as [|fuel IH]; intros h l Hinv Hl Hfuel; [lia|]. simpl.
  destruct (tag_spec h r l "active" Hinv Hl) as (h1 & Htag & Hshape & Hms & Htags).
  rewrite (bind_ok _ _ _ _ _ Htag).
  assert (Hinv1 : tree_inv h1 r) by by eapply shape_inv.
  assert (Hl1 : reach h1 r l) by by apply (shape_reach _ _ _ _ Hshape).
  rewrite (bind_ok _ _ _ _ _ (parent_ok _ _ _ Hinv1 Hl1)).
  rewrite (shape_parent _ _ _ Hshape).
  destruct (parent_of h l) as [p|] eqn:Hpar.
  - destruct (parent_reach _ _ _ _ Hinv Hl Hpar) as (Hp & Hc & Hlt).
    assert (Hp1 : reach h1 r p) by by apply (shape_reach _ _ _ _ Hshape).
    rewrite (bind_ok _ _ _ _ _ (node_bool_ok _ _ _ Hinv1 Hp1)).
    rewrite (shape_children _ _ _ Hshape).
    destruct (children h p) as [|c0 cs] eqn:Hcs; [by apply elem_of_nil in Hc|].
    destruct (IH h1 p Hinv1 Hp1) as (h' & Hrun & Hshape' & Hms' & Htags'); [lia|].
    exists h'. split; [done|]. split; [by eapply same_shape_trans|].
    split; [congruence|]. intros m t Hm.
    rewrite (Htags' m t) by by apply (shape_reach _ _ _ _ Hshape).
    rewrite (Htags m Hm), (shape_anc _ _ _ _ Hshape), (anc_step _ _ _ _ Hpar).
    case_decide as Heq.
    + subst m. rewrite elem_of_union, elem_of_singleton. intuition congruence.
    + intuition congruence.
  - exists h1. split; [done|]. split; [done|]. split; [done|].
    intros m t Hm. rewrite (Htags m Hm), (anc_none _ _ _ Hpar).
    case_decide as Heq.
    + subst m. rewrite elem_of_union, elem_of_singleton. intuition congruence.
    + intuition congruence.
Qed.

Lemma label_all_spec h r fuel (ls : list ref) :
  tree_inv h r -> (forall l, l ∈ ls -> reach h r l) -> length (nodes h) <= fuel ->
  exists h', for_each ls (label_active_recursive fuel) h = inr (tt, h') /\
    same_shape h h' /\ masters h' = masters h /\
    forall m t, reach h r m ->
      (t ∈ tags_of h' m <->
       t ∈ tags_of h m \/ (t = "active" /\ exists l, l ∈ ls /\ anc h l m)).
Proof.
  intros Hinv Hls Hfuel.
  destruct (for_each_total
    (fun pre s => same_shape h s /\ masters s = masters h /\
       forall m t, reach h r m ->
         (t ∈ tags_of s m <->
          t ∈ tags_of h m \/ (t = "active" /\ exists l, l ∈ pre /\ anc h l m)))
    ls (label_active_recursive fuel) [] h) as (h' & Hrun & HP).
  - split; [apply same_shape_refl|]. split; [done|]. intros m t Hm.
    split; [by left|]. intros [?|(_ & l & ?%elem_of_nil & _)]; done.
  - intros pre l s [post Hpost] (Hshape & Hms & Htags). simpl in Hpost.
    assert (Hl : reach h r l).
    { apply Hls. rewrite Hpost. apply elem_of_app. right. by left. }
    destruct (label_spec r fuel s l) as (s' & Hrun & Hshape' & Hms' & Htags').
    + by eapply shape_inv.
    + by apply (shape_reach _ _ _ _ Hshape).
    + pose proof (reach_lt _ _ _ Hinv Hl). lia.
    + exists s'. split; [done|]. split; [by eapply same_shape_trans|].
      split; [congruence|]. intros m t Hm.
      rewrite (Htags' m t) by by apply (shape_reach _ _ _ _ Hshape).
      rewrite (Htags m t Hm), (shape_anc _ _ _ _ Hshape). split.
      * intros [[?|(-> & l' & Hl' & Ha)]|(-> & Ha)]; [by left| |].
        -- right. split; [done|]. exists l'. split; [apply elem_of_app; by left|done].
        -- right. split; [done|]. exists l.
           split; [apply elem_of_app; right; by apply list_elem_of_singleton|done].
      * intros [?|(-> & l' & [Hl'| ->%list_elem_of_singleton]%elem_of_app & Ha)].
        -- by do 2 left.
        -- left. right. split; [done|]. by exists l'.
        -- by right.
  - exists h'. done.
Qed.

(** ** [get_active_tree]: copying *)

Lemma extends_refl h : extends h h.
Proof. by repeat split. Qed.

Lemma extends_trans h1 h2 h3 : extends h1 h2 -> extends h2 h3 -> extends h1 h3.
Proof.
  intros (Hn & Hl & Hs & Hm) (Hn' & Hl' & Hs' & Hm').
  split; [eauto|]. split; [eauto|]. split; congruence.
Qed.

Section Extends.
Variables (h h' : heap) (r : ref).
Hypothesis Hinv : tree_inv h r.
Hypothesis Hext : extends h h'.

Lemma extends_children n : reach h r n -> children h' n = children h n.
Proof.
  intros Hn. destruct (inv_live _ _ Hinv n Hn) as (nd & bs & s & Hnd & Hbs & Hs).
  destruct Hext as (Hns & Hls & _).
  unfold children. by rewrite (Hns _ _ Hnd), Hnd, (Hls _ _ Hbs), Hbs.
Qed.

Lemma extends_tags n : reach h r n -> tags_of h' n = tags_of h n.
Proof.
  intros Hn. destruct (inv_live _ _ Hinv n Hn) as (nd & bs & s & Hnd & Hbs & Hs).
  destruct Hext as (Hns & _ & Hss & _).
  unfold tags_of. by rewrite (Hns _ _ Hnd), Hnd, Hss.
Qed.

Lemma extends_master n : reach h r n -> master_of h' n = master_of h n.
Proof.
  intros Hn. destruct (inv_live _ _ Hinv n Hn) as (nd & bs & s & Hnd & Hbs & Hs).
  destruct Hext as (Hns & _). unfold master_of. by rewrite (Hns _ _ Hnd), Hnd.
Qed.

Lemma extends_parent n : reach h r n -> parent_of h' n = parent_of h n.
Proof.
  intros Hn. destruct (inv_live _ _ Hinv n Hn) as (nd & bs & s & Hnd & Hbs & Hs).
  destruct Hext as (Hns & _). unfold parent_of. by rewrite (Hns _ _ Hnd), Hnd.
Qed.

Lemma extends_reach n : reach h' r n <-> reach h r n.
Proof.
  split; induction 1 as [|p c Hp IH Hc]; try apply reach_root.
  - eapply reach_child; [done|]. by rewrite <- (extends_children _ IH).
  - eapply reach_child; [done|]. by rewrite (extends_children _ Hp).
Qed.

Lemma extends_inv : tree_inv h' r.
Proof.
  pose proof Hext as (Hns & Hls & Hss & _). split.
  - intros n Hn%extends_reach.
    destruct (inv_live _ _ Hinv n Hn) as (nd & bs & s & Hnd & Hbs & Hs).
    exists nd, bs, s. rewrite Hss. eauto.
  - intros p c Hp%extends_reach Hc. rewrite (extends_children _ Hp) in Hc.
    destruct (inv_child _ _ Hinv p c Hp Hc) as [Hlt Hpar]. split; [done|].
    rewrite extends_parent; [done|]. by eapply reach_child.
  - intros n m nd md Hn%extends_reach Hm%extends_reach Hnd Hmd.
    destruct (inv_live _ _ Hinv n Hn) as (nd' & _ & _ & Hnd' & _).
    destruct (inv_live _ _ Hinv m Hm) as (md' & _ & _ & Hmd' & _).
    rewrite (Hns _ _ Hnd') in Hnd. rewrite (Hns _ _ Hmd') in Hmd. simplify_eq.
    by apply (inv_own _ _ Hinv).
  - rewrite extends_parent; [apply (inv_root _ _ Hinv)|apply reach_root].
Qed.

End Extends.

Lemma extends_alloc_node h nd : extends h (with_nodes (nodes h ++ [nd]) h).
Proof.
  split; [intros n x Hn; simpl; by apply lookup_app_l_Some|]. by repeat split.
Qed.

(** One level of [copy_active_tree_recursive]: the copy of the node and
    the list made for it are new objects, no node or list that existed
    before is touched, and the recursion goes into children that the
    node already had. *)
Lemma copy_active_tree_level h0 r :
  tree_inv h0 r ->
  forall fuel h n nd bs,
  extends h0 h -> nodes h !! n = Some nd -> lists h !! _branches nd = Some bs ->
  (forall c, c ∈ bs -> reach h0 r c) ->
  exists kept h3,
    (forall x, x ∈ kept -> x ∈ bs) /\ extends h h3 /\
    nodes h3 !! length (nodes h) =
      Some {| _game_master := _game_master nd; _branches := length (lists h);
              _parent := _parent nd; _tags := _tags nd; _response := _response nd |} /\
    copy_active_tree_recursive (S fuel) n h =
      for_each kept (copy_active_tree_recursive fuel) h3.
Proof.
  intros Hinv fuel h n nd bs Hext Hnd Hbs Hch.
  assert (Hlt := lookup_lt_Some _ _ _ Hnd).
  set (h1 := with_nodes (nodes h ++ [nd]) h).
  assert (Halloc : alloc_node nd h = inr (length (nodes h), h1)) by done.
  assert (Hnd1 : nodes h1 !! n = Some nd) by (by apply lookup_app_l_Some).
  assert (Hiter : iter n h1 = inr (bs, h1)).
  { unfold iter. rewrite (bind_ok _ _ _ _ _ (load_node_ok _ _ _ Hnd1)).
    unfold load_list. munfold. cbn. by rewrite Hbs. }
  destruct (for_fold_total
    (fun (pre : list ref) (acc : list ref) s => s = h1 /\ forall x, x ∈ acc -> x ∈ pre)
    bs (fun kept node => bind (has_tag node "active")
          (fun b => ret (if b then kept ++ [node] else kept)))
    [] [] h1) as (kept & ? & Hkept & -> & Hsub).
  { split; [done|]. by intros x ?%elem_of_nil. }
  { intros pre c acc s [post Hpost] _ [-> Hacc]. simpl in Hpost.
    assert (Hc : c ∈ bs) by (rewrite Hpost; apply elem_of_app; right; by left).
    destruct (inv_live _ _ Hinv c (Hch c Hc)) as (cd & _ & s & Hcd & _ & Hs).
    destruct Hext as (Hns & _ & Hss & _).
    assert (Hcd1 : nodes h1 !! c = Some cd) by (by apply lookup_app_l_Some, Hns).
    assert (Hs1 : sets h1 !! _tags cd = Some s) by (simpl; by rewrite Hss).
    rewrite (bind_ok _ _ _ _ _ (has_tag_ok _ _ _ _ "active" Hcd1 Hs1)).
    eexists _, _. split; [done|]. split; [done|].
    intros x Hx. case_bool_decide.
    - apply elem_of_app in Hx as [Hx|Hx]; apply elem_of_app; auto.
    - apply elem_of_app; auto. }
  simpl in Hsub.
  set (h2 := with_lists (lists h ++ [kept]) h1).
  assert (Hal : alloc_list kept h1 = inr (length (lists h), h2)) by done.
  set (nd' := {| _game_master := _game_master nd; _branches := length (lists h);
                 _parent := _parent nd; _tags := _tags nd;
                 _response := _response nd |}).
  set (h3 := with_nodes (nodes h ++ [nd']) h2).
  assert (Hset : set_branches (length (nodes h)) (length (lists h)) h2 = inr (tt, h3)).
  { unfold set_branches, load_node, store_node. munfold. cbn.
    rewrite list_lookup_middle by done. cbn.
    rewrite decide_True by (rewrite length_app; simpl; lia). cbn.
    rewrite insert_app_r_alt by done. by rewrite Nat.sub_diag. }
  assert (Hiter3 : iter (length (nodes h)) h3 = inr (kept, h3)).
  { unfold iter, load_node, load_list. munfold. cbn.
    rewrite list_lookup_middle by done. cbn.
    by rewrite list_lookup_middle by done. }
  exists kept, h3. split; [done|]. split; [|split].
  - split; [intros x xd Hx; by apply lookup_app_l_Some|].
    split; [intros x xd Hx; by apply lookup_app_l_Some|]. by split.
  - by apply list_lookup_middle.
  - cbn [copy_active_tree_recursive].
    assert (Hcopy : copy n h = inr (length (nodes h), h1)).
    { unfold copy. by rewrite (bind_ok _ _ _ _ _ (load_node_ok _ _ _ Hnd)). }
    rewrite (bind_ok _ _ _ _ _ Hcopy), (bind_ok _ _ _ _ _ Hiter).
    rewrite (bind_ok _ _ _ _ _ Hkept), (bind_ok _ _ _ _ _ Hal).
    by rewrite (bind_ok _ _ _ _ _ Hset), (bind_ok _ _ _ _ _ Hiter3).
Qed.

(** The recursion descends into nodes of the original tree, so as for
    the search the number of its nodes bounds the depth. *)
Lemma copy_active_tree_recursive_ok h0 r :
  tree_inv h0 r ->
  forall f h n nd bs,
  extends h0 h -> nodes h !! n = Some nd -> lists h !! _branches nd = Some bs ->
  (forall c, c ∈ bs -> reach h0 r c /\ length (nodes h0) <= f + c) ->
  exists h', copy_active_tree_recursive (S f) n h = inr (tt, h') /\ extends h h' /\
    nodes h' !! length (nodes h) =
      Some {| _game_master := _game_master nd; _branches := length (lists h);
              _parent := _parent nd; _tags := _tags nd; _response := _response nd |}.
Proof.
  intros Hinv. induction f as [|f IH]; intros h n nd bs Hext Hnd Hbs Hch.
  - (* no fuel left below: a child would have to be a node that does not exist *)
    destruct (copy_active_tree_level h0 r Hinv 0 h n nd bs Hext Hnd Hbs)
      as (kept & h3 & Hsub & Hext3 & Hcopy & ->); [intros c Hc; by apply Hch|].
    destruct kept as [|c kept].
    + exists h3. done.
    + destruct (Hch c) as [Hrc Hle]; [apply Hsub; by left|].
      pose proof (reach_lt _ _ _ Hinv Hrc). lia.
  - destruct (copy_active_tree_level h0 r Hinv (S f) h n nd bs Hext Hnd Hbs)
      as (kept & h3 & Hsub & Hext3 & Hcopy & ->); [intros c Hc; by apply Hch|].
    destruct (for_each_total (fun _ s => extends h3 s) kept
                (copy_active_tree_recursive (S f)) [] h3) as (h' & Hrun & Hext').
    + apply extends_refl.
    + intros pre c s [post Hpost] Hs. simpl in Hpost.
      assert (Hc : c ∈ bs).
      { apply Hsub. rewrite Hpost. apply elem_of_app. right. by left. }
      destruct (Hch c Hc) as [Hrc Hle].
      assert (Hext0 : extends h0 s)
        by (eapply extends_trans; [|done]; by eapply extends_trans).
      destruct (reach_children _ _ _ Hinv Hrc) as (cd & Hcd & Hcbs).
      destruct (IH s c cd (children h0 c)) as (s' & Hrun & Hext' & _); [done| | | |].
      * by apply Hext0.
      * by apply Hext0.
      * intros c' Hc'. split; [by eapply reach_child|].
        destruct (inv_child _ _ Hinv c c' Hrc Hc'). lia.
      * exists s'. split; [done|]. by eapply extends_trans.
    + exists h'. split; [done|]. split; [by eapply extends_trans|].
      by apply Hext'.
Qed.

(** ** [get_active_tree] as a whole *)


Lemma get_active_tree_spec h self :
  let r := root (_game_tree self) in
  tree_inv h r ->
  exists t h',
    get_active_tree self h = inr (t, h') /\
    tree_inv h' r /\ masters h' = masters h /\
    (forall n, reach h' r n <-> reach h r n) /\
    (forall n, reach h r n ->
       nodes h' !! n = nodes h !! n /\
       children h' n = children h n /\ master_of h' n = master_of h n /\
       parent_of h' n = parent_of h n) /\
    (forall n t, reach h r n ->
       (t ∈ tags_of h' n <->
        t ∈ tags_of h n \/ (t = "active" /\ exists l, active_leaf h self l /\ anc h l n))) /\
    root t = length (nodes h) /\
    nodes h' !! root t = nodes h !! r.
Proof.
  intros r Hinv. unfold get_active_tree.
  assert (Htree : _game_tree self = {| root := r |}) by (unfold r; by destruct (_game_tree self)).
  rewrite Htree.
  destruct (find_leaves_spec h r Hinv) as (ls & Hfind & Hls).
  rewrite (bind_ok _ _ _ _ _ Hfind).
  destruct (for_fold_total
    (fun pre (acc : list ref) s => s = h /\
       forall l, l ∈ acc <->
         l ∈ pre /\ exists m, master_of h l = Some m /\ m ∈ _active_parent_masters self)
    ls (fun active_leaves leave => bind (unwrap leave) (fun m =>
          ret (if bool_decide (m ∈ _active_parent_masters self)
               then active_leaves ++ [leave] else active_leaves)))
    [] [] h) as (als & ? & Hfilter & -> & Hals).
  { split; [done|]. intros l. split; [by intros ?%elem_of_nil|].
    by intros [?%elem_of_nil _]. }
  { intros pre l acc s [post Hpost] _ [-> Hacc]. simpl in Hpost.
    assert (Hl : reach h r l).
    { apply Hls. rewrite Hpost. apply elem_of_app. right. by left. }
    destruct (unwrap_ok _ _ _ Hinv Hl) as (m & Hun & Hm).
    rewrite (bind_ok _ _ _ _ _ Hun). eexists _, _. split; [done|]. split; [done|].
    intros l'. case_bool_decide as Hact.
    - rewrite !elem_of_app, Hacc, list_elem_of_singleton. split.
      + intros [[? ?]| ->]; [by auto|]. split; [by right|by exists m].
      + intros [[?| ->] ?]; auto.
    - rewrite elem_of_app, Hacc, list_elem_of_singleton. split.
      + intros [? ?]. auto.
      + intros [[?| ->] Hex]; [done|]. destruct Hex as (m' & Hm' & Hin).
        assert (m' = m) as -> by congruence. done. }
  simpl in Hals. rewrite (bind_ok _ _ _ _ _ Hfilter).
  unfold bind at 1, get at 1.
  destruct (label_all_spec h r (recursion_bound h) als Hinv)
    as (h1 & Hlabel & Hshape & Hms & Htags).
  { intros l [Hl _]%Hals. by apply Hls. }
  { unfold recursion_bound. lia. }
  rewrite (bind_ok _ _ _ _ _ Hlabel).
  assert (Hinv1 : tree_inv h1 r) by by eapply shape_inv.
  destruct (reach_children _ _ _ Hinv1 (reach_root h1 r)) as (rd & Hrd & Hrbs).
  set (h2 := with_nodes (nodes h1 ++ [rd]) h1).
  assert (Hcopy : copy r h1 = inr (length (nodes h1), h2)).
  { unfold copy. by rewrite (bind_ok _ _ _ _ _ (load_node_ok _ _ _ Hrd)). }
  rewrite (bind_ok _ _ _ _ _ Hcopy). unfold bind at 1, get at 1.
  assert (Hext2 : extends h1 h2) by apply extends_alloc_node.
  destruct (copy_active_tree_recursive_ok h1 r Hinv1 (length (nodes h2)) h2
              (length (nodes h1)) rd (children h1 r))
    as (h' & Hrun & Hext' & _).
  { done. }
  { by apply list_lookup_middle. }
  { by apply Hext2. }
  { intros c Hc. split; [eapply reach_child; [apply reach_root|done]|].
    unfold h2. simpl. rewrite length_app. lia. }
  change (recursion_bound h2) with (S (length (nodes h2))).
  rewrite (bind_ok _ _ _ _ _ Hrun). unfold ret.
  assert (Hext : extends h1 h') by by eapply extends_trans.
  destruct Hshape as (Hns & Hlsts & Hlen).
  assert (Hshape : same_shape h h1) by done.
  eexists _, h'. split; [done|].
  split; [by eapply extends_inv|].
  split; [destruct Hext as (_ & _ & _ & ->); done|].
  split; [intros n; by rewrite (extends_reach _ _ _ Hinv1 Hext), (shape_reach _ _ _ _ Hshape)|].
  split; [|split; [|split]].
  - intros n Hn. assert (Hn1 : reach h1 r n) by by apply (shape_reach _ _ _ _ Hshape).
    split.
    { destruct (inv_live _ _ Hinv1 n Hn1) as (nd & _ & _ & Hnd & _).
      rewrite <- Hns, Hnd. by apply Hext. }
    rewrite (extends_children _ _ _ Hinv1 Hext n Hn1), (shape_children _ _ _ Hshape).
    rewrite (extends_master _ _ _ Hinv1 Hext n Hn1), (shape_master _ _ _ Hshape).
    by rewrite (extends_parent _ _ _ Hinv1 Hext n Hn1), (shape_parent _ _ _ Hshape).
  - intros n t Hn. assert (Hn1 : reach h1 r n) by by apply (shape_reach _ _ _ _ Hshape).
    rewrite (extends_tags _ _ _ Hinv1 Hext n Hn1), (Htags n t Hn).
    split; (intros [?|(-> & l & Hl & Ha)]; [by left|right; split; [done|exists l; split; [|done]]]).
    + apply Hals in Hl as (Hl & m & Hm & Hact). apply Hls in Hl as [Hl Hleaf].
      split; [by rewrite Htree|]. split; [done|]. by exists m.
    + destruct Hl as (Hl & Hleaf & m & Hm & Hact). rewrite Htree in Hl.
      apply Hals. split; [by apply Hls|]. by exists m.
  - simpl. by rewrite Hns.
  - simpl. rewrite <- Hns, Hrd.
    apply Hext'. by apply list_lookup_middle.
Qed.

(** ** The states the orchestrator reaches *)

Lemma new_node_eq gm attrs h0 :
  new_node gm attrs h0 =
  inr (length (nodes h0),
       {| masters := masters h0;
          nodes := nodes h0 ++ [{| _game_master := gm; _branches := length (lists h0);
                                   _parent := None; _tags := length (sets h0);
                                   _response := attrs |}];
          lists := lists h0 ++ [[]];
          sets := sets h0 ++ [∅] |}).
Proof. reflexivity. Qed.

Lemma init_spec gm f crit h0 self h :
  init gm f crit h0 = inr (self, h) ->
  let r := root (_game_tree self) in
  tree_inv h r /\ (forall n, reach h r n -> n = r) /\ tags_of h r = ∅ /\
  children h r = [] /\ master_of h r = Some gm /\
  _active_parent_masters self = [gm] /\ _done self = false.
Proof.
  unfold init. case_decide; [|done].
  rewrite (bind_ok _ _ _ _ _ (new_node_eq gm None h0)).
  unfold ret. intros [= <- <-]. cbn.
  set (h := {| masters := masters h0; nodes := nodes h0 ++ _; lists := _; sets := _ |}).
  set (r := length (nodes h0)).
  assert (Hnode : nodes h !! r =
            Some {| _game_master := gm; _branches := length (lists h0);
                    _parent := None; _tags := length (sets h0); _response := None |})
    by by apply list_lookup_middle.
  assert (Hlist : lists h !! length (lists h0) = Some []) by by apply list_lookup_middle.
  assert (Hset : sets h !! length (sets h0) = Some ∅) by by apply list_lookup_middle.
  assert (Hch : children h r = []).
  { unfold children. rewrite Hnode.
    change (_branches _) with (length (lists h0)). by rewrite Hlist. }
  assert (Honly : forall n, reach h r n -> n = r).
  { induction 1 as [|p c Hp -> Hc]; [done|]. rewrite Hch in Hc. by apply elem_of_nil in Hc. }
  split; [|split; [done|split; [|split; [done|split; [|done]]]]].
  - split.
    + intros n ->%Honly. eexists _, [], ∅. split; [exact Hnode|]. by split.
    + intros p c ->%Honly Hc. rewrite Hch in Hc. by apply elem_of_nil in Hc.
    + by intros n m nd md ->%Honly ->%Honly.
    + unfold parent_of. by rewrite Hnode.
  - unfold tags_of. rewrite Hnode.
    change (_tags _) with (length (sets h0)). by rewrite Hset.
  - unfold master_of. by rewrite Hnode.
Qed.

Lemma with_masters_same_tree h ms : same_tree h (with_masters ms h).
Proof. by repeat split. Qed.

Lemma history_inv h self past :
  history h self past -> tree_inv h (root (_game_tree self)).
Proof.
  induction 1 as [h0 gm f crit self h Hinit|h self past ms _ IH
                  |h self past sts self' res h' _ IH Hstep
                  |h self past t h' _ IH Hget].
  - by destruct (init_spec _ _ _ _ _ _ Hinit).
  - eapply same_tree_inv; [apply with_masters_same_tree|done].
  - pose proof (step_cases h self sts IH) as Hc. rewrite Hstep in Hc.
    destruct res as [d infos].
    destruct Hc as (rs & h1 & _ & _ & _ & _ & -> & _ & _ & Hg & _).
    apply (grown_inv _ _ _ _ Hg).
  - destruct (get_active_tree_spec h self IH) as (t' & h'' & Hget' & Hinv' & _).
    rewrite Hget in Hget'. by simplify_eq.
Qed.

(** ** The claims about [step] *)

Lemma steps_ok_live h r sts : steps_ok h r sts -> Forall (live_master h) sts.
Proof. intros Hok. eapply Forall_impl; [exact Hok|]. by intros st [? _]. Qed.

Lemma steps_ok_wrapped h r sts st :
  steps_ok h r sts -> st ∈ sts -> ~ unwrapped h r (parent_master st).
Proof.
  intros Hok Hst Hun. unfold steps_ok in Hok. rewrite Forall_forall in Hok.
  destruct (Hok st Hst) as (_ & n & Hn & Hm). by apply (Hun n).
Qed.

Lemma step_total h self groups :
  tree_inv h (root (_game_tree self)) ->
  steps_ok h (root (_game_tree self)) (concat groups) ->
  exists self' d infos h', step self groups h = inr ((self', (d, infos)), h').
Proof.
  intros Hinv Hok. pose proof (step_cases h self groups Hinv) as Hc.
  destruct (step self groups h) as [e|[[self' [d infos]] h']]; [|by eauto].
  destruct Hc as [[_ Hnl]|(_ & _ & st & Hst & Hun)].
  - destruct Hnl. by eapply steps_ok_live.
  - by destruct (steps_ok_wrapped _ _ _ _ Hok Hst).
Qed.

Lemma all_true (bs : list bool) : all bs = true <-> Forall (fun b => b = true) bs.
Proof.
  unfold all. induction bs as [|b bs IH]; simpl.
  - split; [constructor|done].
  - rewrite andb_true_iff, Forall_cons, IH. done.
Qed.

(** C1. A call of [step] in a state the orchestrator can reach, on
    candidates whose branch handles are live and whose parent handles
    are wrapped in the tree, returns, and the new active parents are the
    branch handles of all the candidates in the order of the groups:
    nothing is kept from the old list and no candidate is left out,
    whatever its [apply] reported and however many siblings it has. *)
Theorem step_replaces_active_leaves h self past groups :
  history h self past ->
  steps_ok h (root (_game_tree self)) (concat groups) ->
  exists self' res h',
    step self groups h = inr ((self', res), h') /\
    _active_parent_masters self' = map branch_master (concat groups) /\
    history h' self' past.
Proof.
  intros Hhist Hok. pose proof (history_inv _ _ _ Hhist) as Hinv.
  destruct (step_total h self groups Hinv Hok) as (self' & d & infos & h' & Hstep).
  pose proof (step_cases h self groups Hinv) as Hc. rewrite Hstep in Hc.
  destruct Hc as (rs & h1 & _ & _ & _ & Hact & _).
  exists self', (d, infos), h'. split; [done|]. split; [done|].
  by eapply history_step.
Qed.

(** C2. Under the same conditions the flag [step] returns is true
    exactly when every [apply], run in the order of the candidates,
    reported done; [is_done] then reports that flag. *)
Theorem step_done_iff_all_done h self past groups :
  history h self past ->
  steps_ok h (root (_game_tree self)) (concat groups) ->
  exists self' d infos h' rs h1,
    step self groups h = inr ((self', (d, infos)), h') /\
    applied (concat groups) h rs h1 /\
    (d = true <-> Forall (fun reported => reported.1 = true) rs) /\
    is_done self' = d.
Proof.
  intros Hhist Hok. pose proof (history_inv _ _ _ Hhist) as Hinv.
  destruct (step_total h self groups Hinv Hok) as (self' & d & infos & h' & Hstep).
  pose proof (step_cases h self groups Hinv) as Hc. rewrite Hstep in Hc.
  destruct Hc as (rs & h1 & Hrs & Hd & Hdone & _).
  exists self', d, infos, h', rs, h1. split; [done|]. split; [done|].
  split; [|done]. rewrite Hd, all_true, Forall_fmap. done.
Qed.

(** C10. With no group at all [step] returns at once: the flag is the
    conjunction over no candidate, that is true, the list of infos is
    empty, the active parents become the empty list and the store is
    untouched; [is_done] is true from then on. *)
Theorem step_empty self h :
  exists self',
    step self [] h = inr ((self', (true, [])), h) /\
    _active_parent_masters self' = [] /\
    is_done self' = true /\
    _game_tree self' = _game_tree self.
Proof.
  exists {| _root := _root self; _done := true; _game_tree := _game_tree self;
            _active_parent_masters := [];
            _branching_factor := _branching_factor self;
            _branching_criteria := _branching_criteria self |}.
  done.
Qed.

(** C6. A parent handle that no node of the tree wraps, and that is not
    the branch handle of a candidate of the same call either: [find_node]
    returns [None] and leaves the store alone, while [add_branch_to] and
    the whole of [step] raise the assertion error. *)
Theorem missing_parent_raises h self past groups st :
  history h self past ->
  Forall (live_master h) (concat groups) ->
  st ∈ concat groups ->
  unwrapped h (root (_game_tree self)) (parent_master st) ->
  parent_master st ∉ map branch_master (concat groups) ->
  find_node (_game_tree self) (parent_master st) h = inr (None, h) /\
  (forall d i, add_branch_to {| cand_response := st; cand_done := d; cand_info := i |}
                 (_game_tree self) h = inl missing_parent) /\
  step self groups h = inl missing_parent.
Proof.
  intros Hhist Hlive Hst Hun Hnew. pose proof (history_inv _ _ _ Hhist) as Hinv.
  set (r := root (_game_tree self)) in *.
  assert (Htree : _game_tree self = {| root := r |})
    by (unfold r; by destruct (_game_tree self)).
  split; [|split].
  - rewrite Htree.
    destruct (find_node_spec h r (parent_master st) Hinv) as ([x|] & Hfind & Hspec);
      [|done].
    destruct Hspec as [Hx Hm]. by destruct (Hun x Hx).
  - intros d i. rewrite Htree.
    pose proof (add_branch_to_cases h r
      {| cand_response := st; cand_done := d; cand_info := i |} Hinv) as Hc.
    destruct (add_branch_to _ _ h) as [e|[[] h']].
    + by destruct Hc as [-> _].
    + destruct Hc as (Hg & n & Hn & Hm). simpl in *.
      destruct (grown_new _ _ _ _ Hg n Hn) as [Hold|(_ & m & Hin & Hm')].
      * destruct (grown_old _ _ _ _ Hg n Hold) as (_ & _ & Heq).
        destruct (Hun n Hold). congruence.
      * apply list_elem_of_singleton in Hin as ->. destruct Hnew.
        assert (parent_master st = branch_master st) as -> by congruence.
        by apply list_elem_of_fmap_2.
  - pose proof (step_cases h self groups Hinv) as Hc.
    destruct (step self groups h) as [e|[[self' [d infos]] h']].
    + destruct Hc as [[_ Hnl]|(-> & _)]; [by destruct Hnl|done].
    + destruct Hc as (rs & h1 & _ & _ & _ & _ & _ & _ & _ & Hg & _ & Hw).
      destruct (Hw st Hst) as (n & Hn & Hm).
      destruct (grown_new _ _ _ _ Hg n Hn) as [Hold|(_ & m & Hin & Hm')].
      * destruct (grown_old _ _ _ _ Hg n Hold) as (_ & _ & Heq).
        destruct (Hun n Hold). congruence.
      * destruct Hnew. congruence.
Qed.

(** ** What [get_active_tree] returns *)

(** The root of the tree that is returned is a new node with the
    attributes of the root of the orchestrator's tree: it holds that
    root's own list of children, all of them, and its own set of tags. *)
Lemma get_active_tree_root_shared h self past :
  history h self past ->
  exists t h',
    get_active_tree self h = inr (t, h') /\
    root t = length (nodes h) /\
    nodes h' !! root t = nodes h' !! root (_game_tree self) /\
    children h' (root t) = children h (root (_game_tree self)).
Proof.
  intros Hhist. pose proof (history_inv _ _ _ Hhist) as Hinv.
  destruct (get_active_tree_spec h self Hinv)
    as (t & h' & Hget & _ & _ & _ & Hframe & _ & Hroot & Hnode).
  destruct (Hframe _ (reach_root h _)) as (Hnd & Hch & _).
  exists t, h'. split; [done|]. split; [done|].
  split; [congruence|]. rewrite <- Hch. unfold children. by rewrite Hnode, Hnd.
Qed.

(** ** The claim about the tags *)





(** ** The branch generator *)

Lemma masters_kept_refl h : masters_kept h h.
Proof. by intros m g. Qed.

Lemma masters_kept_trans h1 h2 h3 :
  masters_kept h1 h2 -> masters_kept h2 h3 -> masters_kept h1 h3.
Proof. intros H12 H23 m g Hm. by apply H23, H12. Qed.

Lemma clone_of_kept h s s' p st :
  masters_kept s s' -> clone_of h s p st -> clone_of h s' p st.
Proof.
  intros Hk (Hp & Hfresh & g & Hg & Hpl & Hctx & Hst & Hresp).
  split; [done|]. split; [done|]. exists g. repeat (split; [done|]).
  split; [by apply Hk|done].
Qed.

Lemma branch_once_spec h s p g :
  masters h !! p = Some g -> masters_kept h s ->
  length (masters h) <= length (masters s) ->
  exists st s',
    branch_once p (gm_observe g).1 (gm_observe g).2 s = inr (st, s') /\
    branch_master st = length (masters s) /\
    length (masters s') = S (length (masters s)) /\
    masters_kept s s' /\ same_tree s s' /\ clone_of h s' p st.
Proof.
  intros Hg Hk Hlen. assert (Hgs : masters s !! p = Some g) by by apply Hk.
  unfold branch_once, deepcopy, load_master, alloc_master, store_master. munfold. cbn.
  rewrite Hgs. cbn. rewrite list_lookup_middle by done. cbn.
  destruct (gm_observe g) as [pl ctx] eqn:Hobs. cbn.
  destruct (player_call pl g ctx) as [g' text] eqn:Hcall. cbn.
  rewrite decide_True by (rewrite length_app; simpl; lia). cbn.
  rewrite insert_app_r_alt by done. rewrite Nat.sub_diag. cbn.
  eexists _, _. split; [reflexivity|]. cbn.
  split; [done|]. split; [rewrite length_app; simpl; lia|].
  split; [intros m gm Hm; by apply lookup_app_l_Some|]. split; [done|].
  split; [done|]. split; [done|]. exists g. rewrite Hobs. cbn. rewrite Hcall. cbn.
  split; [done|]. split; [done|]. split; [done|]. split; [|done].
  by apply list_lookup_middle.
Qed.

Lemma range_length (n : Z) : length (range n) = Z.to_nat n.
Proof. unfold range. apply length_seq. Qed.

(** The loop [for _ in range(k)] for one parent: [k] new handles, numbered
    from the number of game masters there were. *)
Lemma branch_loop_spec h s0 p g (k : Z) :
  masters h !! p = Some g -> masters_kept h s0 ->
  length (masters h) <= length (masters s0) ->
  exists sts s,
    for_fold (range k) [] (fun branching_steps _ =>
      bind (branch_once p (gm_observe g).1 (gm_observe g).2)
        (fun st => ret (branching_steps ++ [st]))) s0 = inr (sts, s) /\
    length sts = Z.to_nat k /\
    length (masters s) = length (masters s0) + length sts /\
    map branch_master sts = seq (length (masters s0)) (length sts) /\
    masters_kept s0 s /\ same_tree s0 s /\ Forall (clone_of h s p) sts.
Proof.
  intros Hg Hk Hlen.
  destruct (for_fold_total
    (fun (pre : list nat) (acc : list BranchingStep) s =>
       length acc = length pre /\
       length (masters s) = length (masters s0) + length acc /\
       map branch_master acc = seq (length (masters s0)) (length acc) /\
       masters_kept s0 s /\ same_tree s0 s /\ Forall (clone_of h s p) acc)
    (range k)
    (fun branching_steps _ =>
      bind (branch_once p (gm_observe g).1 (gm_observe g).2)
        (fun st => ret (branching_steps ++ [st])))
    [] [] s0) as (sts & s & Hrun & HP).
  - split; [done|]. split; [simpl; lia|]. split; [done|].
    split; [apply masters_kept_refl|]. split; [apply same_tree_refl|constructor].
  - intros pre i acc s _ _ (Hl & Hms & Hseq & Hk' & Hsame & Hall).
    destruct (branch_once_spec h s p g Hg) as (st & s' & Hrun & Hb & Hlen' & Hk'' & Hsame' & Hclone).
    { by eapply masters_kept_trans. }
    { lia. }
    rewrite (bind_ok _ _ _ _ _ Hrun). eexists _, _. split; [done|].
    rewrite !length_app. simpl. split; [lia|]. split; [lia|].
    split; [|split; [by eapply masters_kept_trans|split; [by eapply same_tree_trans|]]].
    + rewrite map_app, seq_app, Hseq. simpl. by rewrite Hb, Hms.
    + apply Forall_app. split; [|by constructor].
      eapply Forall_impl; [done|]. intros x. by apply clone_of_kept.
  - simpl in HP. destruct HP as (Hl & Hms & Hseq & Hk' & Hsame & Hall).
    exists sts, s. rewrite range_length in Hl. done.
Qed.

(** C5. For a positive branching factor and parents that are live game
    masters, the branch generator returns one list of steps per parent,
    in the order of the parents; the list of a parent has as many steps
    as the factor says when the criteria holds of the parent, and one
    otherwise; every step is a clone of its parent, made into an object
    that did not exist before the call; no two steps of the result share
    their branch handle; and the game masters that existed before the
    call are in the state they were in. *)
Theorem branching_response_spec parents (F : Z) crit h :
  (0 < F)%Z ->
  Forall (fun p => p < length (masters h)) parents ->
  exists res h',
    branching_response parents F crit h = inr (res, h') /\
    length res = length parents /\
    Forall2 (fun p sts =>
               (exists g, masters h !! p = Some g /\
                  Z.of_nat (length sts) = if crit g then F else 1%Z) /\
               Forall (clone_of h h' p) sts) parents res /\
    NoDup (map branch_master (concat res)) /\
    masters_kept h h' /\ same_tree h h'.
Proof.
  intros HF Hlive.
  destruct (for_fold_total
    (fun (pre : list ref) (acc : list (list BranchingStep)) s =>
       length (masters s) = length (masters h) + length (concat acc) /\
       map branch_master (concat acc) = seq (length (masters h)) (length (concat acc)) /\
       masters_kept h s /\ same_tree h s /\
       Forall2 (fun p sts =>
                  (exists g, masters h !! p = Some g /\
                     Z.of_nat (length sts) = if crit g then F else 1%Z) /\
                  Forall (clone_of h s p) sts) pre acc)
    parents
    (fun all_branching_steps parent_master =>
       bind (load_master parent_master) (fun g =>
         let (parent_player, parent_context) := gm_observe g in
         let current_branching_factor := if crit g then F else 1%Z in
         bind (for_fold (range current_branching_factor) [] (fun branching_steps _ =>
                 bind (branch_once parent_master parent_player parent_context)
                   (fun st => ret (branching_steps ++ [st]))))
           (fun branching_steps => ret (all_branching_steps ++ [branching_steps]))))
    [] [] h) as (res & h' & Hrun & HP).
  - split; [simpl; lia|]. split; [done|]. split; [apply masters_kept_refl|].
    split; [apply same_tree_refl|constructor].
  - intros pre p acc s [post Hpost] _ (Hms & Hseq & Hk & Hsame & Hall).
    simpl in Hpost.
    assert (Hp : p < length (masters h)).
    { rewrite Forall_forall in Hlive. apply Hlive. rewrite Hpost.
      apply elem_of_app. right. by left. }
    apply lookup_lt_is_Some in Hp as [g Hg].
    assert (Hload : load_master p s = inr (g, s)).
    { unfold load_master. munfold. by rewrite (Hk _ _ Hg). }
    rewrite (bind_ok _ _ _ _ _ Hload).
    destruct (branch_loop_spec h s p g (if crit g then F else 1%Z) Hg Hk)
      as (sts & s' & Hloop & Hlen & Hms' & Hseq' & Hk' & Hsame' & Hclones); [lia|].
    destruct (gm_observe g) as [pl ctx] eqn:Hobs. simpl in Hloop.
    rewrite (bind_ok _ _ _ _ _ Hloop). eexists _, _. split; [done|].
    rewrite concat_app, length_app, map_app. simpl. rewrite app_nil_r.
    split; [lia|]. split; [by rewrite seq_app, Hseq, Hseq', Hms|].
    split; [by eapply masters_kept_trans|]. split; [by eapply same_tree_trans|].
    apply Forall2_app.
    + eapply Forall2_impl; [done|]. intros q qs [Hq Hqs]. split; [done|].
      eapply Forall_impl; [done|]. intros x. by apply clone_of_kept.
    + constructor; [|constructor]. split; [|done]. exists g. split; [done|].
      rewrite Hlen. destruct (crit g); lia.
  - simpl in HP. destruct HP as (Hms & Hseq & Hk & Hsame & Hall).
    exists res, h'. split; [done|].
    split; [symmetry; by eapply Forall2_length|]. split; [done|].
    split; [rewrite Hseq; apply NoDup_seq|done].
Qed.

End BranchingProofs.

(** * The claims at work on the countdown game *)

Lemma ex_history1 : history ex_h1 ex_self0 [].
Proof. apply (history_init ex_h0 0 2%Z always). reflexivity. Qed.

Lemma ex_history2 : history ex_h2 ex_self0 [].
Proof. apply (history_env ex_h1 ex_self0 [] [3; 3; 3]), ex_history1. Qed.

Lemma ex_reach_root n : reach ex_h2 0 n -> n = 0.
Proof.
  induction 1 as [|p c Hp -> Hc]; [done|].
  vm_compute in Hc. by apply elem_of_nil in Hc.
Qed.

Lemma ex_steps_ok : steps_ok ex_h2 (root (_game_tree ex_self0)) (concat ex_round1).
Proof.
  unfold steps_ok. simpl. constructor; [|constructor; [|constructor]].
  all: split; [unfold live_master; simpl; lia|].
  all: exists 0; split; [apply reach_root|reflexivity].
Qed.

Lemma step_replaces_active_leaves_witness :
  history ex_h2 ex_self0 [] /\
  steps_ok ex_h2 (root (_game_tree ex_self0)) (concat ex_round1) /\
  exists self' res h',
    step ex_self0 ex_round1 ex_h2 = inr ((self', res), h') /\
    _active_parent_masters self' = map branch_master (concat ex_round1) /\
    history h' self' [].
Proof.
  split; [exact ex_history2|]. split; [exact ex_steps_ok|].
  apply (step_replaces_active_leaves ex_h2 ex_self0 [] ex_round1).
  - exact ex_history2.
  - exact ex_steps_ok.
Defined.

Lemma step_done_iff_all_done_witness :
  history ex_h2 ex_self0 [] /\
  steps_ok ex_h2 (root (_game_tree ex_self0)) (concat ex_round1) /\
  exists self' d infos h' rs h1,
    step ex_self0 ex_round1 ex_h2 = inr ((self', (d, infos)), h') /\
    applied (concat ex_round1) ex_h2 rs h1 /\
    (d = true <-> Forall (fun reported => reported.1 = true) rs) /\
    is_done self' = d.
Proof.
  split; [exact ex_history2|]. split; [exact ex_steps_ok|].
  apply (step_done_iff_all_done ex_h2 ex_self0 [] ex_round1).
  - exact ex_history2.
  - exact ex_steps_ok.
Defined.


Lemma branching_response_spec_witness :
  (0 < 2)%Z /\
  Forall (fun p => p < length (masters ex_h1)) [0] /\
  exists res h',
    branching_response [0] 2 always ex_h1 = inr (res, h') /\
    length res = length [0] /\
    Forall2 (fun p sts =>
               (exists g, masters ex_h1 !! p = Some g /\
                  Z.of_nat (length sts) = if always g then 2%Z else 1%Z) /\
               Forall (clone_of ex_h1 h' p) sts) [0] res /\
    NoDup (map branch_master (concat res)) /\
    masters_kept ex_h1 h' /\ same_tree ex_h1 h'.
Proof.
  split; [lia|]. split; [repeat constructor|].
  apply (branching_response_spec [0] 2%Z always ex_h1).
  - lia.
  - repeat constructor.
Defined.

Lemma missing_parent_raises_witness :
  history ex_h2 ex_self0 [] /\
  Forall (live_master ex_h2) (concat ex_orphan) /\
  ex_step 7 2 1 ∈ concat ex_orphan /\
  unwrapped ex_h2 (root (_game_tree ex_self0)) (parent_master (ex_step 7 2 1)) /\
  (parent_master (ex_step 7 2 1) ∉ map branch_master (concat ex_orphan)) /\
  find_node (_game_tree ex_self0) (parent_master (ex_step 7 2 1)) ex_h2 = inr (None, ex_h2) /\
  (forall d i, add_branch_to {| cand_response := ex_step 7 2 1; cand_done := d;
                                cand_info := i |}
                 (_game_tree ex_self0) ex_h2 = inl missing_parent) /\
  step ex_self0 ex_orphan ex_h2 = inl missing_parent.
Proof.
  assert (Hlive : Forall (live_master ex_h2) (concat ex_orphan)).
  { simpl. constructor; [|constructor; [|constructor]]; unfold live_master; simpl; lia. }
  assert (Hin : ex_step 7 2 1 ∈ concat ex_orphan).
  { simpl. right. by left. }
  assert (Hun : unwrapped ex_h2 (root (_game_tree ex_self0))
                  (parent_master (ex_step 7 2 1))).
  { intros n ->%ex_reach_root. discriminate. }
  assert (Hnew : parent_master (ex_step 7 2 1) ∉ map branch_master (concat ex_orphan)).
  { simpl. by intros [?|[?|?%elem_of_nil]%elem_of_cons]%elem_of_cons. }
  split; [exact ex_history2|]. do 4 (split; [done|]).
  exact (missing_parent_raises ex_h2 ex_self0 [] ex_orphan (ex_step 7 2 1)
           ex_history2 Hlive Hin Hun Hnew).
Defined.

Lemma connect_to_idempotent_witness :
  nodes ex_two !! 0 = Some (@Build_GameTreeNode countdown 0 0 None 0 None) /\
  lists ex_two !! 0 = Some [] /\
  nodes ex_two !! 1 = Some (@Build_GameTreeNode countdown 1 1 None 1 None) /\
  exists h1,
    connect_to 0 1 ex_two = inr (tt, h1) /\
    connect_to 0 1 h1 = inr (tt, h1) /\
    children h1 0 = (if bool_decide (1 ∈ ([] : list ref)) then [] else [] ++ [1]) /\
    length (children h1 0) =
      length (if bool_decide (1 ∈ ([] : list ref)) then [] else [] ++ [1]) /\
    (1 ∉ ([] : list ref) -> parent_of h1 1 = Some 0) /\
    (1 ∈ ([] : list ref) -> h1 = ex_two).
Proof.
  do 3 (split; [reflexivity|]).
  apply (connect_to_idempotent ex_two 0 1
           (@Build_GameTreeNode countdown 0 0 None 0 None) []
           (@Build_GameTreeNode countdown 1 1 None 1 None)); reflexivity.
Defined.

(** C3, at the rollout that continues one of two branches.  The tree
    that [get_active_tree] returns has a new root, but that root holds
    the very list of children of the orchestrator's root: the branch
    that was dropped, node 2, is still a child of it although it does not
    carry the tag, and a node hung under the returned root appears under
    the orchestrator's root as well. *)
Theorem get_active_tree_keeps_inactive_branch :
  exists (t : GameTree) (self : @BranchingGameMaster countdown) (h : @heap countdown),
    pruned_rollout ex_h0 = inr ((t, self), h) /\
    _active_parent_masters self = [3; 4] /\
    root t <> root (_game_tree self) /\
    children h (root (_game_tree self)) = [1; 2] /\
    ("active" ∉ tags_of h 2) /\
    children h (root t) = [1; 2] /\
    (@_branches countdown <$> nodes h !! root t)
      = (@_branches countdown <$> nodes h !! root (_game_tree self)) /\
    exists b h',
      grow_returned t h = inr (b, h') /\
      children h' (root (_game_tree self)) = [1; 2; b].
Proof.
  eexists _, _, _. split; [vm_compute; reflexivity|].
  split; [reflexivity|]. split; [discriminate|]. split; [reflexivity|].
  split.
  { match goal with
    | |- ?x ∉ ?S => apply (bool_decide_eq_false_1 (x ∈ S))
    end.
    vm_compute. reflexivity. }
  split; [reflexivity|]. split; [reflexivity|].
  eexists _, _. split; [vm_compute; reflexivity|]. reflexivity.
Qed.

(** * The dynamic batch loader *)

Lemma poll_session_id s o s' :
  Batchwise.poll s = inr (Some o, s') -> o.1.1 = Batchwise.session_id s.
Proof.
  unfold Batchwise.poll.
  destruct (Batchwise.last (Batchwise.game_env s)) as [[[[[ctx rw] term] trunc] inf] env].
  destruct (term || trunc); [done|].
  destruct (_ !! _); [|done]. by intros [= <- _].
Qed.

(** A pass reports the sessions in their input order, and none that the
    table had marked exhausted. *)
Lemma poll_sessions_order ss : forall table,
  match Batchwise.poll_sessions ss table with
  | inr (obs, _, _) =>
      sublist (map (fun o => o.1.1) obs) (map Batchwise.session_id ss) /\
      Forall (fun o => default false (table !! o.1.1) = false) obs
  | inl _ => True
  end.
Proof.
  induction ss as [|s ss IH]; intros table; simpl; [by split; constructor|].
  destruct (Batchwise.is_exhausted table s) eqn:Hex.
  - specialize (IH table).
    destruct (Batchwise.poll_sessions ss table) as [e|[[obs ss'] table']]; [done|].
    destruct IH as [Hsub Hall]. split; [by apply sublist_cons|done].
  - destruct (Batchwise.poll s) as [e|[[o|] s']] eqn:Hpoll; [done| |].
    + specialize (IH table).
      destruct (Batchwise.poll_sessions ss table) as [e|[[obs ss'] table']]; [done|].
      destruct IH as [Hsub Hall]. simpl.
      rewrite (poll_session_id _ _ _ Hpoll). split; [by apply sublist_skip|].
      constructor; [|done]. by rewrite (poll_session_id _ _ _ Hpoll).
    + specialize (IH (<[Batchwise.session_id s := true]> table)).
      destruct (Batchwise.poll_sessions ss _) as [e|[[obs ss'] table']]; [done|].
      destruct IH as [Hsub Hall]. split; [by apply sublist_cons|].
      eapply Forall_impl; [done|]. intros o Ho. simpl in Ho.
      destruct (decide (Batchwise.session_id s = o.1.1)) as [Heq|Hne].
      * rewrite <- Heq, lookup_insert_eq in Ho. discriminate.
      * by rewrite lookup_insert_ne in Ho.
Qed.

(** C7. One session that allows three observations, batch size 5: the
    loader is accepted, and its iteration ends, whatever the bound on
    the number of passes from four on, after exactly three batches of
    one observation each, all of session 0, with the turn counters 1, 2
    and 3 in that order; the session is then marked exhausted. *)
Theorem single_session_three_batches :
  Batchwise.new_loader Batchwise.single_session 5
    = inr {| Batchwise.poller := Batchwise.single_session; Batchwise.batch_size := 5 |} /\
  forall k, exists batches p,
    Batchwise.iterate (4 + k)
      {| Batchwise.poller := Batchwise.single_session; Batchwise.batch_size := 5 |}
      = inr (batches, p) /\
    length batches = 3 /\
    map (fun b => b.1.1) batches = [[0]; [0]; [0]] /\
    map (fun b => length b.2) batches = [1; 1; 1] /\
    map (fun b => map Batchwise.turn_of b.2) batches
      = [[Some (VInt 1)]; [Some (VInt 2)]; [Some (VInt 3)]] /\
    Batchwise.all_exhausted p = true.
Proof.
  split; [reflexivity|]. intros k.
  eexists _, _. split; [vm_compute; reflexivity|].
  repeat split; vm_compute; reflexivity.
Qed.

(** C8. A pass reports the sessions in their input order and never one
    that is marked exhausted.  For the sessions 0, 1, 2 with 0 and 2
    active: when the table marks session 1, whatever its environment,
    and when session 1 is done from the start as in the test, the pass
    yields two observations, of the sessions 0 and 2 in that order. *)
Theorem pass_skips_exhausted :
  (forall ss table,
     match Batchwise.poll_sessions ss table with
     | inr (obs, _, _) =>
         sublist (map (fun o => o.1.1) obs) (map Batchwise.session_id ss) /\
         Forall (fun o => default false (table !! o.1.1) = false) obs
     | inl _ => True
     end) /\
  (forall env1, exists obs p,
     Batchwise.poll_pass (Batchwise.one_marked env1) = inr (obs, p) /\
     length obs = 2 /\ map (fun o => o.1.1) obs = [0; 2]) /\
  (exists obs p,
     Batchwise.poll_pass Batchwise.one_done = inr (obs, p) /\
     length obs = 2 /\ map (fun o => o.1.1) obs = [0; 2] /\
     map (Batchwise.is_exhausted (Batchwise.exhausted p)) (Batchwise.sessions p)
       = [false; true; false]).
Proof.
  split; [intros ss table; apply poll_sessions_order|]. split.
  - intros env1. eexists _, _. split; [vm_compute; reflexivity|].
    split; reflexivity.
  - eexists _, _. split; [vm_compute; reflexivity|].
    repeat split; vm_compute; reflexivity.
Qed.
